(** * Reverse engineering confusion matrices from summary metrics

    A verification development for the two C++ programs

      - [src/cpp/reverse_engineer_confusion_matrix.cpp], which enumerates the
        candidate matrices into a vector and then narrows that vector with one
        [check_metric] call per requested metric (module [Sequential]);
      - [src/cpp/reverse_engineer.cpp], which checks every candidate against
        the four targets while it enumerates and writes the survivors to a CSV
        file (module [Fused]).

    [round_dp] and [find_positives_vs_negatives] are textually the same in the
    two files and are embedded once.

    Conventions.
      - [int] is embedded as [Z].  Signed overflow is undefined in C++; on
        the pipelines' path every integer computed below stays between
        [- (class_a_count + class_b_count)] and
        [class_a_count + class_b_count], so nothing leaves the [int] range
        when the total sample size fits in it.
      - [double] is embedded as the primitive binary64 type [float]; [+], [*],
        [/], [==] and [!=] are the IEEE 754 operations of [PrimFloat], whose
        meaning is given by [SpecFloat] through the axioms of [FloatAxioms].
      - loops whose trip count is not a syntactic constant run on fuel and
        report [OutOfFuel] when it is exhausted; termination is a theorem.

    Layout: the embedding of the two sources, the closed forms and the
    real-number reading of binary64 used by the proofs, then the proofs:
    loops, range finder, metrics, enumeration, and the monotonicity of
    binary64 rounding on which the accuracy of the enumerated matrices
    rests. *)

From Stdlib Require Import ZArith List Bool String Lia Floats Reals Lra.
Import ListNotations.

Open Scope Z_scope.

(** ** Double-precision helpers *)

Module Double.

(** [(double)z] for an [int] [z]: exact, every [int] is a binary64 value. *)
Definition of_int (z : Z) : float :=
  if z <? 0 then (- of_uint63 (Uint63.of_Z (- z)))%float
  else of_uint63 (Uint63.of_Z z).

(** [round] of <cmath>: the nearest integral value, halfway cases away from
    zero.  A finite double is [(-1)^s * m * 2^e]; with [e >= 0] it is
    integral already, otherwise the magnitude is [m / 2^(-e)] and adding
    half before the truncating shift rounds a tie upwards in magnitude.
    The rounded magnitude is below [2^53], hence converted exactly.
    Zeros, infinities and NaN are returned unchanged. *)
Definition round (x : float) : float :=
  match Prim2SF x with
  | S754_finite s m e =>
      if e <? 0 then
        let n := Z.shiftr (Zpos m + Z.shiftl 1 (- e - 1)) (- e) in
        let r := of_uint63 (Uint63.of_Z n) in
        if s then (- r)%float else r
      else x
  | _ => x
  end.

(** [pow(10.0f, (double)d)]: the double nearest to [10^d] (exactly [10^d]
    up to [d = 22], [infinity] from [d = 309] on).  [main] asserts
    [DECIMAL_PLACES >= 0]; for a negative [d] the reciprocal is taken. *)
Definition pow10 (d : Z) : float :=
  if d <? 0
  then (1 / SF2Prim (binary_normalize prec emax (10 ^ (- d)) 0 false))%float
  else SF2Prim (binary_normalize prec emax (10 ^ d) 0 false).

(** [x != y] on doubles is the negation of [x == y] (true when either side
    is NaN). *)
Definition neqb (x y : float) : bool := negb (x =? y)%float.

End Double.

Import Double.

(** [round_dp], identical in both files. *)
Definition round_dp (number : float) (decimal_places : Z) : float :=
  let modifier := pow10 decimal_places in
  (round (number * modifier) / modifier)%float.

(** The sentinel [-1] that switches an optional target off. *)
Definition unconstrained : float := (-1)%float.

(** ** Results of running a function *)

(** A call either returns, or ends the process through [exit(0)] after
    printing a line on standard output, or (in the model only) runs out of
    fuel. *)
Inductive run (A : Type) : Type :=
| Done (result : A)
| Exit (stdout : string)
| OutOfFuel.

Arguments Done {A} result.
Arguments Exit {A} stdout.
Arguments OutOfFuel {A}.

Definition bind {A B : Type} (c : run A) (k : A -> run B) : run B :=
  match c with
  | Done a => k a
  | Exit out => Exit out
  | OutOfFuel => OutOfFuel
  end.

Notation "x <- c ;; k" := (bind c (fun x => k))
  (at level 61, c at next level, right associativity).

(** [while (guard) body], with the number of iterations performed. *)
Fixpoint while_loop {St : Type} (fuel : nat) (guard : St -> bool)
    (body : St -> run St) (s : St) : run (nat * St) :=
  if guard s then
    match fuel with
    | O => OutOfFuel
    | S fuel' =>
        s' <- body s ;;
        r <- while_loop fuel' guard body s' ;;
        Done (S (fst r), snd r)
    end
  else Done (O, s).

(** ** Data *)

(** [std::array<int,4>], in the order [{TP, FN, FP, TN}]. *)
Record matrix : Type := Matrix { TP : Z; FN : Z; FP : Z; TN : Z }.

(** The four-cell [static int min_max_values[4]]: cell 0 is the maximal
    number of correct predictions, cell 1 its complement, cell 2 the minimal
    number of correct predictions, cell 3 its complement; [-1] marks a cell
    that was never written. *)
Record min_max : Type := MinMax {
  max_correct : Z;
  min_incorrect : Z;
  min_correct : Z;
  max_incorrect : Z
}.

(** The initialiser [{-1,-1,-1,-1}], which is also the "not found" marker. *)
Definition initial_min_max : min_max := MinMax (-1) (-1) (-1) (-1).

(** ** find_positives_vs_negatives *)

(** The test of the loop body:
    [round_dp((double)i / (double)total, decimal_places) == target]. *)
Definition accuracy_matches (total_sample_size : Z) (target_accuracy : float)
    (decimal_places : Z) (i : Z) : bool :=
  let correct_preds := i in
  let calculated_accuracy :=
    (of_int correct_preds / of_int total_sample_size)%float in
  (round_dp calculated_accuracy decimal_places =? target_accuracy)%float.

(** What the body stores on a match: the first pair when cell 0 still holds
    [-1], the second pair otherwise. *)
Definition record_match (total_sample_size i : Z) (mmv : min_max) : min_max :=
  let correct_preds := i in
  let incorrect_preds := total_sample_size - i in
  if max_correct mmv =? -1
  then MinMax correct_preds incorrect_preds (min_correct mmv) (max_incorrect mmv)
  else MinMax (max_correct mmv) (min_incorrect mmv) correct_preds incorrect_preds.

(** [for (int i = n; i > 0; i--)] over an arbitrary test, so that the loop
    can be reasoned about independently of the arithmetic on doubles. *)
Fixpoint scan_down (hit : Z -> bool) (total_sample_size : Z) (n : nat)
    (mmv : min_max) : min_max :=
  match n with
  | O => mmv
  | S n' =>
      let i := Z.of_nat n in
      scan_down hit total_sample_size n'
        (if hit i then record_match total_sample_size i mmv else mmv)
  end.

(** The function proper.  Its [static] array persists between calls, so the
    array found on entry is an argument and the array left behind (to which
    the returned pointer points) is the result. *)
Definition find_positives_vs_negatives (static_values : min_max)
    (total_sample_size : Z) (target_accuracy : float) (decimal_places : Z)
    : min_max :=
  scan_down (accuracy_matches total_sample_size target_accuracy decimal_places)
    total_sample_size (Z.to_nat total_sample_size) static_values.

Definition no_combinations_message : string :=
  "There are no combinations that can achieve this accuracy.".

(** ** The enumeration shared by both files *)

(** [combinations], the trip count of the outer loop. *)
Definition combinations (min_max_values : min_max) : Z :=
  if negb (min_correct min_max_values =? -1)
  then max_correct min_max_values - min_correct min_max_values + 1
  else 1.

(** The "base matrix" of offset [i]. *)
Definition base_matrix (class_a_count class_b_count : Z)
    (min_max_values : min_max) (i : Z) : matrix :=
  let TP := class_a_count - i in
  let TP := if max_correct min_max_values - i <? class_a_count
            then max_correct min_max_values - i else TP in
  let FN := class_a_count - TP in
  let FP := min_incorrect min_max_values + i - FN in
  let TN := class_b_count - FP in
  Matrix TP FN FP TN.

(** [--TP; ++FN; --FP; ++TN;] *)
Definition transfer (m : matrix) : matrix :=
  Matrix (TP m - 1) (FN m + 1) (FP m - 1) (TN m + 1).

(** [TP > 0 && TN < class_b_count] *)
Definition transfer_guard (class_b_count : Z) (m : matrix) : bool :=
  (0 <? TP m) && (TN m <? class_b_count).

(** ** reverse_engineer_confusion_matrix.cpp *)

Module Sequential.

(** The inner [while]: its state is the current [TP, FN, FP, TN] and the
    vector [matrices]; [push_back] appends. *)
Definition sweep_state : Type := (matrix * list matrix)%type.

Definition sweep_guard (class_b_count : Z) (st : sweep_state) : bool :=
  transfer_guard class_b_count (fst st).

Definition sweep_body (st : sweep_state) : run sweep_state :=
  let m := transfer (fst st) in
  Done (m, snd st ++ [m]).

Definition transfer_sweep (fuel : nat) (class_b_count : Z)
    (st : sweep_state) : run (nat * sweep_state) :=
  while_loop fuel (sweep_guard class_b_count) sweep_body st.

(** The outer [for]: its state is [i] and the vector [matrices]. *)
Definition offsets_state : Type := (Z * list matrix)%type.

Definition offsets_guard (min_max_values : min_max) (st : offsets_state)
    : bool :=
  fst st <? combinations min_max_values.

Definition offsets_body (fuel : nat) (class_a_count class_b_count : Z)
    (min_max_values : min_max) (st : offsets_state) : run offsets_state :=
  let i := fst st in
  let m := base_matrix class_a_count class_b_count min_max_values i in
  r <- transfer_sweep fuel class_b_count (m, snd st ++ [m]) ;;
  Done (i + 1, snd (snd r)).

Definition offsets_loop (fuel : nat) (class_a_count class_b_count : Z)
    (min_max_values : min_max) : run (nat * offsets_state) :=
  while_loop fuel (offsets_guard min_max_values)
    (offsets_body fuel class_a_count class_b_count min_max_values) (0, []).

Definition find_matrices (fuel : nat) (class_a_count class_b_count : Z)
    (min_max_values : min_max) : run (list matrix) :=
  r <- offsets_loop fuel class_a_count class_b_count min_max_values ;;
  Done (snd (snd r)).

(** The metric selected by [metric_name], rounded; [None] on the branch
    that prints "Unknown metric, exiting." and exits. *)
Definition metric_result (metric_name : string) (m : matrix)
    (decimal_places : Z) : option float :=
  let TP := of_int (TP m) in
  let FN := of_int (FN m) in
  let FP := of_int (FP m) in
  let TN := of_int (TN m) in
  if String.eqb metric_name "sensitivity"
  then Some (round_dp (TP / (TP + FN)) decimal_places)
  else if String.eqb metric_name "specificity"
  then Some (round_dp (TN / (TN + FP)) decimal_places)
  else if String.eqb metric_name "f1"
  then Some (round_dp (2 * TP / (2 * TP + FP + FN)) decimal_places)
  else if String.eqb metric_name "precision"
  then Some (round_dp (TP / (TP + FP)) decimal_places)
  else None.

(** The loop of [check_metric] over the elements of [matrices].  The array
    pushed is [{(int)TP,(int)FN,(int)FP,(int)TN}], the element itself: the
    round trip [int -> double -> int] is the identity. *)
Fixpoint check_metric_loop (matrices : list matrix) (target_value : float)
    (decimal_places : Z) (metric_name : string)
    (new_matrices : list matrix) : run (list matrix) :=
  match matrices with
  | [] => Done new_matrices
  | m :: rest =>
      match metric_result metric_name m decimal_places with
      | None => Exit "Unknown metric, exiting."
      | Some result =>
          check_metric_loop rest target_value decimal_places metric_name
            (if (result =? target_value)%float
             then new_matrices ++ [m] else new_matrices)
      end
  end.

Definition check_metric (matrices : list matrix) (target_value : float)
    (decimal_places : Z) (metric_name : string) : run (list matrix) :=
  check_metric_loop matrices target_value decimal_places metric_name [].

(** [if (target != -1) matrices = check_metric(...)] *)
Definition narrow (matrices : list matrix) (target_value : float)
    (decimal_places : Z) (metric_name : string) : run (list matrix) :=
  if neqb target_value unconstrained
  then check_metric matrices target_value decimal_places metric_name
  else Done matrices.

(** The pipeline; [main] calls it once, on the freshly initialised static
    array.  The result is the final value of the local [matrices] (the
    export to a file is still a TODO in the source). *)
Definition reverse_engineer_confusion_matrices (fuel : nat)
    (class_a_count class_b_count decimal_places : Z)
    (target_accuracy target_sensitivity target_specificity target_f1
     target_precision : float) : run (list matrix) :=
  let total_sample_size := class_a_count + class_b_count in
  let min_max_values :=
    find_positives_vs_negatives initial_min_max total_sample_size
      target_accuracy decimal_places in
  if max_correct min_max_values =? -1
  then Exit no_combinations_message
  else
    matrices <- find_matrices fuel class_a_count class_b_count
                  min_max_values ;;
    matrices <- narrow matrices target_sensitivity decimal_places
                  "sensitivity" ;;
    matrices <- narrow matrices target_specificity decimal_places
                  "specificity" ;;
    matrices <- narrow matrices target_f1 decimal_places "f1" ;;
    matrices <- narrow matrices target_precision decimal_places
                  "precision" ;;
    Done matrices.

End Sequential.

(** ** reverse_engineer.cpp *)

Module Fused.

(** [check_metric] on the four counts cast to [double]. *)
Definition check_metric (TP FN FP TN : float)
    (target_sensitivity target_specificity target_f1 target_precision : float)
    (decimal_places : Z) : bool :=
  let meets_criteria := true in
  let meets_criteria :=
    if neqb (round_dp (TP / (TP + FN)) decimal_places) target_sensitivity
       || (target_sensitivity =? unconstrained)%float
    then false else meets_criteria in
  let meets_criteria :=
    if neqb (round_dp (TN / (TN + FP)) decimal_places) target_specificity
       || (target_specificity =? unconstrained)%float
    then false else meets_criteria in
  let meets_criteria :=
    if neqb (round_dp (2 * TP / (2 * TP + FP + FN)) decimal_places) target_f1
       || (target_f1 =? unconstrained)%float
    then false else meets_criteria in
  let meets_criteria :=
    if neqb (round_dp (TP / (TP + FP)) decimal_places) target_precision
       || (target_precision =? unconstrained)%float
    then false else meets_criteria in
  meets_criteria.

Section Enumeration.

Variables (class_a_count class_b_count : Z) (min_max_values : min_max).
Variables (target_sensitivity target_specificity target_f1
           target_precision : float).
Variable decimal_places : Z.

Definition passes (m : matrix) : bool :=
  check_metric (of_int (TP m)) (of_int (FN m)) (of_int (FP m))
    (of_int (TN m)) target_sensitivity target_specificity target_f1
    target_precision decimal_places.

(** The rows written to the CSV file after its header line.  A row is
    the matrix followed by the five targets, which are the same on every
    row; the state of a loop carries the rows written so far. *)
Definition write_if_passes (file : list matrix) (m : matrix)
    : list matrix :=
  if passes m then file ++ [m] else file.

Definition sweep_state : Type := (matrix * list matrix)%type.

Definition sweep_guard (st : sweep_state) : bool :=
  transfer_guard class_b_count (fst st).

Definition sweep_body (st : sweep_state) : run sweep_state :=
  let m := transfer (fst st) in
  Done (m, write_if_passes (snd st) m).

Definition transfer_sweep (fuel : nat) (st : sweep_state)
    : run (nat * sweep_state) :=
  while_loop fuel sweep_guard sweep_body st.

Definition offsets_state : Type := (Z * list matrix)%type.

Definition offsets_guard (st : offsets_state) : bool :=
  fst st <? combinations min_max_values.

Definition offsets_body (fuel : nat) (st : offsets_state)
    : run offsets_state :=
  let i := fst st in
  let m := base_matrix class_a_count class_b_count min_max_values i in
  r <- transfer_sweep fuel (m, write_if_passes (snd st) m) ;;
  Done (i + 1, snd (snd r)).

Definition offsets_loop (fuel : nat) : run (nat * offsets_state) :=
  while_loop fuel offsets_guard (offsets_body fuel) (0, []).

Definition find_matrices (fuel : nat) : run (list matrix) :=
  r <- offsets_loop fuel ;;
  Done (snd (snd r)).

End Enumeration.

(** The pipeline; the result is the list of rows in the CSV file.  On the
    early exit the file has not been opened. *)
Definition reverse_engineer_confusion_matrices (fuel : nat)
    (class_a_count class_b_count decimal_places : Z)
    (target_accuracy target_sensitivity target_specificity target_f1
     target_precision : float) : run (list matrix) :=
  let total_sample_size := class_a_count + class_b_count in
  let min_max_values :=
    find_positives_vs_negatives initial_min_max total_sample_size
      target_accuracy decimal_places in
  if max_correct min_max_values =? -1
  then Exit no_combinations_message
  else
    find_matrices class_a_count class_b_count min_max_values
      target_sensitivity target_specificity target_f1 target_precision
      decimal_places fuel.

End Fused.

(** ** Closed forms used in the proofs *)

(** [i, i+1, ..., i+n-1] *)
Fixpoint zrange (i : Z) (n : nat) : list Z :=
  match n with
  | O => []
  | S n' => i :: zrange (i + 1) n'
  end.

(** The matrices reached from [m] by [n] successive transfers. *)
Fixpoint sweep_tail (m : matrix) (n : nat) : list matrix :=
  match n with
  | O => []
  | S n' => transfer m :: sweep_tail (transfer m) n'
  end.

(** The number of transfers the inner guard allows from [m]. *)
Definition sweep_count (class_b_count : Z) (m : matrix) : nat :=
  Z.to_nat (Z.min (TP m) (class_b_count - TN m)).

Definition offset_matrices (class_a_count class_b_count : Z)
    (min_max_values : min_max) (i : Z) : list matrix :=
  let m := base_matrix class_a_count class_b_count min_max_values i in
  m :: sweep_tail m (sweep_count class_b_count m).

Definition enumeration (class_a_count class_b_count : Z)
    (min_max_values : min_max) : list matrix :=
  flat_map (offset_matrices class_a_count class_b_count min_max_values)
    (zrange 0 (Z.to_nat (combinations min_max_values))).

(** Fuel that lets both loops of [find_matrices] run to their guards. *)
Definition enough_fuel (class_a_count : Z) (min_max_values : min_max)
    (fuel : nat) : Prop :=
  (Z.to_nat class_a_count <= fuel)%nat /\
  (Z.to_nat (combinations min_max_values) <= fuel)%nat.

(** The matrix on which a sweep of [n] transfers stops. *)
Fixpoint transfer_n (m : matrix) (n : nat) : matrix :=
  match n with
  | O => m
  | S n' => transfer_n (transfer m) n'
  end.

(** What the array says once the counts in [(k, N]] have been tested,
    for a scan that started on the initial array. *)
Definition seen (hit : Z -> bool) (total N k : Z) (v : min_max) : Prop :=
  (max_correct v = -1 ->
     v = initial_min_max /\ forall c, k < c <= N -> hit c = false) /\
  (max_correct v <> -1 ->
     k < max_correct v <= N /\ hit (max_correct v) = true /\
     min_incorrect v = total - max_correct v /\
     (forall c, k < c <= N -> hit c = true -> c <= max_correct v) /\
     (min_correct v = -1 ->
        max_incorrect v = -1 /\
        forall c, k < c <= N -> hit c = true -> c = max_correct v) /\
     (min_correct v <> -1 ->
        k < min_correct v < max_correct v /\ hit (min_correct v) = true /\
        max_incorrect v = total - min_correct v /\
        forall c, k < c <= N -> hit c = true -> min_correct v <= c)).

(** NaN and the two infinities: what a division by zero produces. *)
Definition non_finite (x : float) : Prop :=
  match Prim2SF x with
  | S754_nan | S754_infinity _ => True
  | _ => False
  end.

Definition known_metric (metric_name : string) : bool :=
  String.eqb metric_name "sensitivity" || String.eqb metric_name "specificity"
  || String.eqb metric_name "f1" || String.eqb metric_name "precision".

(** The test [result == target_value] of [Sequential.check_metric]. *)
Definition keeps (metric_name : string) (target_value : float)
    (decimal_places : Z) (m : matrix) : bool :=
  match Sequential.metric_result metric_name m decimal_places with
  | Some result => (result =? target_value)%float
  | None => false
  end.

(** What [Sequential.narrow] leaves of a vector. *)
Definition narrowed (metric_name : string) (target_value : float)
    (decimal_places : Z) (ms : list matrix) : list matrix :=
  if neqb target_value unconstrained
  then filter (keeps metric_name target_value decimal_places) ms
  else ms.

(** The denominator of each metric formula, as the sources compute it. *)
Definition denominator (metric_name : string) (m : matrix) : option float :=
  let TP := of_int (TP m) in
  let FN := of_int (FN m) in
  let FP := of_int (FP m) in
  let TN := of_int (TN m) in
  if String.eqb metric_name "sensitivity" then Some (TP + FN)%float
  else if String.eqb metric_name "specificity" then Some (TN + FP)%float
  else if String.eqb metric_name "f1" then Some (2 * TP + FP + FN)%float
  else if String.eqb metric_name "precision" then Some (TP + FP)%float
  else None.

Definition zero_denominator (metric_name : string) (m : matrix) : bool :=
  match denominator metric_name m with
  | Some den => (den =? 0)%float
  | None => false
  end.

(** The target of [Fused.check_metric] that belongs to a metric name. *)
Definition target_of (metric_name : string)
    (target_sensitivity target_specificity target_f1 target_precision : float)
    : float :=
  if String.eqb metric_name "sensitivity" then target_sensitivity
  else if String.eqb metric_name "specificity" then target_specificity
  else if String.eqb metric_name "f1" then target_f1
  else target_precision.

(** The double that the literal [0.99] denotes. *)
Definition literal_0_99 : float := 0x1.fae147ae147aep-1%float.

(** The trip count the outer loop is meant to have. *)
Definition trips (min_max_values : min_max) : Z :=
  if min_correct min_max_values =? -1 then 1
  else max_correct min_max_values - min_correct min_max_values + 1.

(** ** Real-number reading of the binary64 operations

    The definitions below give the doubles their real values and describe
    the rounding performed by [SpecFloat.binary_round_aux], so that the
    monotonicity of [round_dp] can be stated and proved. *)

(** [2^e] and [m * 2^e] as reals. *)
Definition bpow (e : Z) : R := powerRZ 2 e.
Definition F2R (m e : Z) : R := (IZR m * bpow e)%R.

#[global] Arguments bpow e : simpl never.
#[global] Arguments F2R m e : simpl never.

Abbreviation fexp := (SpecFloat.fexp prec emax).

(** Location of a real in the slice of width [2^e] above [m * 2^e]. *)
Definition inb (m e : Z) (l : location) (x : R) : Prop :=
  match l with
  | loc_Exact => x = F2R m e
  | loc_Inexact Lt => (F2R m e < x < F2R m e + bpow e / 2)%R
  | loc_Inexact Eq => x = (F2R m e + bpow e / 2)%R
  | loc_Inexact Gt => (F2R m e + bpow e / 2 < x < F2R m e + bpow e)%R
  end.

Definition inb_rec (mrs : shr_record) (e : Z) (x : R) : Prop :=
  inb (shr_m mrs) e (loc_of_shr_record mrs) x.

(** [x] sits in the binade whose canonical exponent is [e]. *)
Definition canon_x (e : Z) (x : R) : Prop :=
  emin <= e /\ (x < bpow (e + prec))%R /\
  (emin < e -> (bpow (e + prec - 1) <= x)%R).

Abbreviation rne := round_nearest_even.

(** The two stages of [binary_round_aux] on a non-negative real [x]:
    locate [x] at its canonical exponent and round the mantissa to nearest
    even, then locate the rounded value at its own canonical exponent. *)
Definition rounded (x : R) (m2 e2 : Z) : Prop :=
  exists m1 e1 l1 l2,
    canon_x e1 x /\ inb m1 e1 l1 x /\ 0 <= m1 /\
    canon_x e2 (F2R (rne m1 l1) e1) /\
    inb m2 e2 l2 (F2R (rne m1 l1) e1) /\ 0 <= m2.

(** The float that [binary_round_aux] builds from the final mantissa. *)
Definition pack (s : bool) (m e : Z) : spec_float :=
  match m with
  | Z0 => S754_zero s
  | Zpos p => if e <=? emax - prec then S754_finite s p e else S754_infinity s
  | Zneg _ => S754_nan
  end.

(** Magnitude order on the spec floats, with the infinities at [2^emax]. *)
Definition key (f : spec_float) : R :=
  match f with
  | S754_zero _ => 0%R
  | S754_finite s m e => if s then (- F2R (Zpos m) e)%R else F2R (Zpos m) e
  | S754_infinity s => if s then (- bpow emax)%R else bpow emax
  | S754_nan => 0%R
  end.

(** Zeros, positive finite numbers and [+infinity]. *)
Definition nonneg (f : spec_float) : Prop :=
  match f with
  | S754_zero _ => True
  | S754_finite s _ _ => s = false
  | S754_infinity s => s = false
  | S754_nan => False
  end.

(** The integer nearest to [m * 2^e], ties upwards, as [round] computes
    it for [e < 0]. *)
Definition nint (m : positive) (e : Z) : Z :=
  Z.shiftr (Zpos m + Z.shiftl 1 (- e - 1)) (- e).

Definition round_sf (X : spec_float) : spec_float :=
  match X with
  | S754_finite _ m e =>
      if e <? 0 then binary_normalize prec emax (nint m e) 0 false else X
  | _ => X
  end.

(** * Proofs *)

(** ** The loop combinator *)

Section WhileLoop.

Context {St : Type}.
Variables (guard : St -> bool) (body : St -> run St).

Lemma while_loop_exit (fuel : nat) (s : St) :
  guard s = false -> while_loop fuel guard body s = Done (O, s).
Proof. intros Hg. destruct fuel; simpl; rewrite Hg; reflexivity. Qed.

Lemma while_loop_step (fuel : nat) (s s' : St) :
  guard s = true -> body s = Done s' ->
  while_loop (S fuel) guard body s =
  r <- while_loop fuel guard body s' ;; Done (S (fst r), snd r).
Proof. intros Hg Hb. simpl. rewrite Hg, Hb. reflexivity. Qed.

(** A loop that returns has left its guard false and kept every
    invariant of its body. *)
Lemma while_loop_invariant (Inv : St -> Prop) :
  (forall s s', Inv s -> guard s = true -> body s = Done s' -> Inv s') ->
  forall fuel s k s',
    Inv s -> while_loop fuel guard body s = Done (k, s') ->
    Inv s' /\ guard s' = false.
Proof.
  intros Hstep fuel. induction fuel as [|fuel IH]; intros s k s' Hs Hrun.
  - simpl in Hrun. destruct (guard s) eqn:Hg; [discriminate|].
    inversion Hrun; subst. auto.
  - simpl in Hrun. destruct (guard s) eqn:Hg.
    + destruct (body s) as [s1| |] eqn:Hb; simpl in Hrun; try discriminate.
      destruct (while_loop fuel guard body s1) as [[k1 s2]| |] eqn:Hr;
        simpl in Hrun; try discriminate.
      inversion Hrun; subst. apply (IH s1 k1 s'); eauto.
    + inversion Hrun; subst. auto.
Qed.

(** A loop whose body returns and lowers a measure under the guard
    returns within as many iterations as the measure allows. *)
Lemma while_loop_terminates (Inv : St -> Prop) (mu : St -> nat) :
  (forall s, Inv s -> guard s = true ->
     exists s', body s = Done s' /\ Inv s' /\ (mu s' < mu s)%nat) ->
  forall fuel s,
    Inv s -> (mu s <= fuel)%nat ->
    exists k s', while_loop fuel guard body s = Done (k, s') /\
                 (k <= mu s)%nat.
Proof.
  intros Hstep fuel. induction fuel as [|fuel IH]; intros s Hs Hfuel.
  - destruct (guard s) eqn:Hg.
    + destruct (Hstep s Hs Hg) as (s1 & _ & _ & Hlt). lia.
    + exists O, s. simpl. rewrite Hg. split; [reflexivity|lia].
  - destruct (guard s) eqn:Hg.
    + destruct (Hstep s Hs Hg) as (s1 & Hb & Hs1 & Hlt).
      destruct (IH s1 Hs1) as (k & s2 & Hrun & Hk); [lia|].
      exists (S k), s2. rewrite (while_loop_step _ _ _ Hg Hb), Hrun.
      simpl. split; [reflexivity|lia].
    + exists O, s. rewrite while_loop_exit by assumption.
      split; [reflexivity|lia].
Qed.

End WhileLoop.

(** ** The enumeration loops compute the closed forms *)

Lemma transfer_guard_count (b : Z) (m : matrix) :
  transfer_guard b m = true <-> sweep_count b m <> O.
Proof.
  unfold transfer_guard, sweep_count. rewrite andb_true_iff, !Z.ltb_lt. lia.
Qed.

Lemma sweep_count_transfer (b : Z) (m : matrix) :
  transfer_guard b m = true ->
  sweep_count b m = S (sweep_count b (transfer m)).
Proof.
  unfold transfer_guard, sweep_count. rewrite andb_true_iff, !Z.ltb_lt.
  simpl. lia.
Qed.

Lemma sweep_count_zero (b : Z) (m : matrix) :
  sweep_count b m = O -> transfer_guard b m = false.
Proof.
  intros H. destruct (transfer_guard b m) eqn:Hg; [|reflexivity].
  apply transfer_guard_count in Hg. contradiction.
Qed.

Lemma zrange_length (i : Z) (n : nat) : List.length (zrange i n) = n.
Proof. revert i. induction n; intros; simpl; auto. Qed.

Lemma zrange_In (n : nat) : forall i k,
  In k (zrange i n) <-> i <= k < i + Z.of_nat n.
Proof.
  induction n as [|n IH]; intros i k; simpl.
  - lia.
  - rewrite IH. lia.
Qed.

Lemma sweep_tail_length (m : matrix) (n : nat) : List.length (sweep_tail m n) = n.
Proof. revert m. induction n; intros; simpl; auto. Qed.

(** The elements of a sweep are the start shifted by [1 .. n]. *)
Lemma sweep_tail_In (n : nat) : forall m x,
  In x (sweep_tail m n) ->
  exists j, 1 <= j <= Z.of_nat n /\
            x = Matrix (TP m - j) (FN m + j) (FP m - j) (TN m + j).
Proof.
  induction n as [|n IH]; intros m x Hin; simpl in Hin.
  - contradiction.
  - destruct Hin as [<- | Hin].
    + exists 1. split; [lia|reflexivity].
    + destruct (IH _ _ Hin) as (j & Hj & ->).
      exists (j + 1). split; [lia|]. simpl. f_equal; lia.
Qed.

Lemma base_matrix_TP_le (a b : Z) (mmv : min_max) (i : Z) :
  0 <= i -> TP (base_matrix a b mmv i) <= a.
Proof.
  intros Hi. unfold base_matrix. simpl.
  destruct (max_correct mmv - i <? a) eqn:Hlt; [apply Z.ltb_lt in Hlt|]; lia.
Qed.

Lemma sweep_count_base_le (a b : Z) (mmv : min_max) (i : Z) :
  0 <= i -> (sweep_count b (base_matrix a b mmv i) <= Z.to_nat a)%nat.
Proof.
  intros Hi. pose proof (base_matrix_TP_le a b mmv i Hi).
  unfold sweep_count. lia.
Qed.

Lemma Sequential_sweep_exact (b : Z) (n : nat) : forall m acc fuel,
  sweep_count b m = n -> (n <= fuel)%nat ->
  Sequential.transfer_sweep fuel b (m, acc) =
  Done (n, (transfer_n m n, acc ++ sweep_tail m n)).
Proof.
  unfold Sequential.transfer_sweep.
  induction n as [|n IH]; intros m acc fuel Hn Hfuel.
  - rewrite while_loop_exit.
    + simpl. rewrite app_nil_r. reflexivity.
    + apply sweep_count_zero. assumption.
  - destruct fuel as [|fuel]; [lia|].
    assert (Hg : transfer_guard b m = true)
      by (apply transfer_guard_count; lia).
    rewrite (while_loop_step _ _ fuel (m, acc)
               (transfer m, acc ++ [transfer m])); auto.
    rewrite IH.
    + simpl. rewrite <- app_assoc. reflexivity.
    + rewrite (sweep_count_transfer b m Hg) in Hn. lia.
    + lia.
Qed.

Lemma Sequential_offsets_exact (a b : Z) (mmv : min_max) (fuel : nat)
    (n : nat) : forall i acc fuel_outer,
  (Z.to_nat a <= fuel)%nat ->
  0 <= i -> i + Z.of_nat n = Z.max 0 (combinations mmv) ->
  (n <= fuel_outer)%nat ->
  while_loop fuel_outer (Sequential.offsets_guard mmv)
    (Sequential.offsets_body fuel a b mmv) (i, acc) =
  Done (n, (i + Z.of_nat n,
            acc ++ flat_map (offset_matrices a b mmv) (zrange i n))).
Proof.
  induction n as [|n IH]; intros i acc fuel_outer Hfuel Hi Hsum Hout.
  - rewrite while_loop_exit.
    + simpl. rewrite app_nil_r, Z.add_0_r. reflexivity.
    + unfold Sequential.offsets_guard. simpl. apply Z.ltb_ge. lia.
  - destruct fuel_outer as [|fuel_outer]; [lia|].
    set (m := base_matrix a b mmv i).
    rewrite (while_loop_step _ _ fuel_outer (i, acc)
               (i + 1, (acc ++ [m]) ++ sweep_tail m (sweep_count b m))).
    + rewrite IH by lia. simpl.
      replace (i + 1 + Z.of_nat n) with (i + Z.pos (Pos.of_succ_nat n))
        by lia.
      unfold offset_matrices at 2. fold m.
      rewrite <- !app_assoc. reflexivity.
    + unfold Sequential.offsets_guard. simpl. apply Z.ltb_lt. lia.
    + unfold Sequential.offsets_body. simpl. fold m.
      rewrite (Sequential_sweep_exact b (sweep_count b m)); auto.
      pose proof (sweep_count_base_le a b mmv i Hi). fold m in H. lia.
Qed.

(** With enough fuel the vector built by the sequential [find_matrices] is
    the closed-form enumeration. *)
Lemma Sequential_find_matrices_exact (a b : Z) (mmv : min_max) (fuel : nat) :
  enough_fuel a mmv fuel ->
  Sequential.find_matrices fuel a b mmv = Done (enumeration a b mmv).
Proof.
  intros [Ha Hc]. unfold Sequential.find_matrices, Sequential.offsets_loop.
  rewrite (Sequential_offsets_exact a b mmv fuel
             (Z.to_nat (combinations mmv))); auto; try lia.
Qed.

Lemma Fused_sweep_exact (b : Z) (ts tsp tf1 tp : float) (d : Z) (n : nat) :
  forall m acc fuel,
  sweep_count b m = n -> (n <= fuel)%nat ->
  Fused.transfer_sweep b ts tsp tf1 tp d fuel (m, acc) =
  Done (n, (transfer_n m n,
            acc ++ filter (Fused.passes ts tsp tf1 tp d) (sweep_tail m n))).
Proof.
  unfold Fused.transfer_sweep.
  induction n as [|n IH]; intros m acc fuel Hn Hfuel.
  - rewrite while_loop_exit.
    + simpl. rewrite app_nil_r. reflexivity.
    + apply sweep_count_zero. assumption.
  - destruct fuel as [|fuel]; [lia|].
    assert (Hg : transfer_guard b m = true)
      by (apply transfer_guard_count; lia).
    rewrite (while_loop_step _ _ fuel (m, acc)
               (transfer m,
                Fused.write_if_passes ts tsp tf1 tp d acc (transfer m)));
      auto.
    rewrite IH.
    + simpl. unfold Fused.write_if_passes.
      destruct (Fused.passes ts tsp tf1 tp d (transfer m)).
      * rewrite <- app_assoc. reflexivity.
      * reflexivity.
    + rewrite (sweep_count_transfer b m Hg) in Hn. lia.
    + lia.
Qed.

Lemma Fused_offsets_exact (a b : Z) (mmv : min_max) (ts tsp tf1 tp : float)
    (d : Z) (fuel : nat) (n : nat) : forall i acc fuel_outer,
  (Z.to_nat a <= fuel)%nat ->
  0 <= i -> i + Z.of_nat n = Z.max 0 (combinations mmv) ->
  (n <= fuel_outer)%nat ->
  while_loop fuel_outer (Fused.offsets_guard mmv)
    (Fused.offsets_body a b mmv ts tsp tf1 tp d fuel) (i, acc) =
  Done (n, (i + Z.of_nat n,
            acc ++ filter (Fused.passes ts tsp tf1 tp d)
                     (flat_map (offset_matrices a b mmv) (zrange i n)))).
Proof.
  induction n as [|n IH]; intros i acc fuel_outer Hfuel Hi Hsum Hout.
  - rewrite while_loop_exit.
    + simpl. rewrite app_nil_r, Z.add_0_r. reflexivity.
    + unfold Fused.offsets_guard. simpl. apply Z.ltb_ge. lia.
  - destruct fuel_outer as [|fuel_outer]; [lia|].
    set (m := base_matrix a b mmv i).
    set (keep := Fused.passes ts tsp tf1 tp d).
    rewrite (while_loop_step _ _ fuel_outer (i, acc)
               (i + 1, acc ++ filter keep (offset_matrices a b mmv i))).
    + rewrite IH by lia. cbn [bind fst snd zrange flat_map].
      replace (i + 1 + Z.of_nat n) with (i + Z.of_nat (S n)) by lia.
      fold keep. rewrite filter_app, <- !app_assoc. reflexivity.
    + unfold Fused.offsets_guard. simpl. apply Z.ltb_lt. lia.
    + unfold Fused.offsets_body. simpl. fold m.
      rewrite (Fused_sweep_exact b ts tsp tf1 tp d (sweep_count b m)); auto.
      * simpl. unfold offset_matrices. fold m. fold keep.
        unfold Fused.write_if_passes. fold keep. simpl.
        destruct (keep m); simpl; rewrite <- ?app_assoc; reflexivity.
      * pose proof (sweep_count_base_le a b mmv i Hi). fold m in H. lia.
Qed.

(** With enough fuel the rows written by the fused [find_matrices] are the
    members of the closed-form enumeration that pass [check_metric]. *)
Lemma Fused_find_matrices_exact (a b : Z) (mmv : min_max)
    (ts tsp tf1 tp : float) (d : Z) (fuel : nat) :
  enough_fuel a mmv fuel ->
  Fused.find_matrices a b mmv ts tsp tf1 tp d fuel =
  Done (filter (Fused.passes ts tsp tf1 tp d) (enumeration a b mmv)).
Proof.
  intros [Ha Hc]. unfold Fused.find_matrices, Fused.offsets_loop.
  rewrite (Fused_offsets_exact a b mmv ts tsp tf1 tp d fuel
             (Z.to_nat (combinations mmv))); auto; try lia.
Qed.

(** ** The scan of find_positives_vs_negatives *)

Section Scan.

Variables (hit : Z -> bool) (total : Z).

(** Without a match the array is left as it was found. *)
Lemma scan_down_no_hit (n : nat) : forall v,
  (forall c, 1 <= c <= Z.of_nat n -> hit c = false) ->
  scan_down hit total n v = v.
Proof.
  induction n as [|n IH]; intros v Hno.
  - reflexivity.
  - cbn [scan_down]. rewrite (Hno (Z.of_nat (S n))) by lia.
    apply IH. intros c Hc. apply Hno. lia.
Qed.

Lemma seen_initial (N : Z) : seen hit total N N initial_min_max.
Proof.
  split.
  - intros _. split; [reflexivity|]. intros c Hc. lia.
  - simpl. intros H. contradiction.
Qed.

Lemma seen_step (N k : Z) (v : min_max) :
  0 <= k -> k + 1 <= N -> seen hit total N (k + 1) v ->
  seen hit total N k (if hit (k + 1) then record_match total (k + 1) v else v).
Proof.
  intros Hk HN [Hunset Hset].
  assert (Hcase : forall c, k < c <= N -> c = k + 1 \/ k + 1 < c <= N)
    by (intros; lia).
  destruct (hit (k + 1)) eqn:Hhit.
  - unfold record_match.
    destruct (max_correct v =? -1) eqn:Hmc.
    + apply Z.eqb_eq in Hmc. destruct (Hunset Hmc) as [-> Hno].
      split; simpl; [lia|]. intros _.
      repeat split; try lia; auto;
        intros c Hc Hh; destruct (Hcase c Hc) as [->|Hc']; try lia;
        rewrite Hno in Hh by assumption; discriminate.
    + apply Z.eqb_neq in Hmc.
      destruct (Hset Hmc) as (Hb & Hh & Hmi & Hmax & _ & _).
      split; simpl; [intros; contradiction|]. intros _.
      repeat split; try lia; auto; try (intros; lia).
      intros c Hc Hc'. destruct (Hcase c Hc) as [->|Hc2]; [lia|].
      apply Hmax; assumption.
  - split.
    + intros Hmc. destruct (Hunset Hmc) as [Hv Hno].
      split; [assumption|]. intros c Hc.
      destruct (Hcase c Hc) as [->|Hc']; auto.
    + intros Hmc.
      destruct (Hset Hmc) as (Hb & Hh & Hmi & Hmax & Hone & Htwo).
      repeat split; try lia; auto;
        try (apply Hone; assumption); try (apply Htwo; assumption);
        intros c Hc Hc'; (destruct (Hcase c Hc) as [->|Hc2];
          [congruence|]);
        [ apply Hmax | apply Hone | apply Htwo ]; assumption.
Qed.

Lemma scan_down_seen (N : Z) (n : nat) : forall v,
  Z.of_nat n <= N -> seen hit total N (Z.of_nat n) v ->
  seen hit total N 0 (scan_down hit total n v).
Proof.
  induction n as [|n IH]; intros v HN Hv.
  - exact Hv.
  - cbn [scan_down]. apply IH; [lia|].
    replace (Z.of_nat (S n)) with (Z.of_nat n + 1) in * by lia.
    apply seen_step; [lia|lia|assumption].
Qed.

(** The first call of a run summarises all of [[1, N]]. *)
Lemma scan_down_initial (N : Z) :
  0 <= N -> seen hit total N 0 (scan_down hit total (Z.to_nat N) initial_min_max).
Proof.
  intros HN. apply scan_down_seen; [lia|].
  rewrite Z2Nat.id by assumption. apply seen_initial.
Qed.

End Scan.

(** ** Doubles that are not finite *)

Lemma eqb_zero_inv (y : float) :
  (y =? 0)%float = true -> exists s, Prim2SF y = S754_zero s.
Proof.
  rewrite eqb_spec.
  change (Prim2SF 0) with (S754_zero false).
  destruct (Prim2SF y) as [s|s| |s m e]; simpl; try discriminate.
  - intros _. exists s. reflexivity.
  - destruct s; discriminate.
  - destruct s; discriminate.
Qed.

Lemma div_zero_non_finite (x y : float) :
  (y =? 0)%float = true -> non_finite (x / y).
Proof.
  intros Hy. destruct (eqb_zero_inv y Hy) as [s Hs].
  unfold non_finite. rewrite div_spec, Hs.
  destruct (Prim2SF x); simpl; exact I.
Qed.

Lemma mul_non_finite (x y : float) : non_finite x -> non_finite (x * y).
Proof.
  unfold non_finite. rewrite mul_spec.
  destruct (Prim2SF x); simpl; try contradiction; intros _;
    destruct (Prim2SF y); simpl; exact I.
Qed.

Lemma div_non_finite (x y : float) : non_finite x -> non_finite (x / y).
Proof.
  unfold non_finite. rewrite div_spec.
  destruct (Prim2SF x); simpl; try contradiction; intros _;
    destruct (Prim2SF y); simpl; exact I.
Qed.

Lemma round_non_finite (x : float) : non_finite x -> round x = x.
Proof.
  unfold non_finite, round.
  destruct (Prim2SF x); simpl; try contradiction; reflexivity.
Qed.

Lemma round_dp_non_finite (x : float) (d : Z) :
  non_finite x -> non_finite (round_dp x d).
Proof.
  intros Hx. unfold round_dp.
  apply div_non_finite. rewrite round_non_finite; apply mul_non_finite, Hx.
Qed.

(** A value in [[0, 1]] is a zero or a finite number, and no non-finite
    double compares equal to it. *)
Lemma eqb_non_finite (x t : float) :
  non_finite x -> (0 <=? t)%float = true -> (t <=? 1)%float = true ->
  (x =? t)%float = false.
Proof.
  unfold non_finite. rewrite !leb_spec, eqb_spec.
  change (Prim2SF 0) with (S754_zero false).
  change (Prim2SF 1) with (S754_finite false 4503599627370496 (-52)).
  destruct (Prim2SF x) as [sx|sx| |sx mx ex]; try contradiction; intros _;
    destruct (Prim2SF t) as [st|st| |st mt et]; simpl;
    try reflexivity; try discriminate;
    destruct sx, st; simpl; try reflexivity; try discriminate.
Qed.

(** ** The sequential filter is a [filter] *)

Lemma metric_result_known (name : string) (m : matrix) (d : Z) :
  known_metric name = true ->
  exists r, Sequential.metric_result name m d = Some r.
Proof.
  unfold known_metric, Sequential.metric_result.
  destruct (String.eqb name "sensitivity"); [eauto|].
  destruct (String.eqb name "specificity"); [eauto|].
  destruct (String.eqb name "f1"); [eauto|].
  destruct (String.eqb name "precision"); [eauto|].
  discriminate.
Qed.

Lemma check_metric_loop_filter (name : string) (t : float) (d : Z) :
  known_metric name = true ->
  forall ms acc,
    Sequential.check_metric_loop ms t d name acc =
    Done (acc ++ filter (keeps name t d) ms).
Proof.
  intros Hk. induction ms as [|m ms IH]; intros acc; simpl.
  - rewrite app_nil_r. reflexivity.
  - unfold keeps at 1.
    destruct (metric_result_known name m d Hk) as [r ->].
    rewrite IH. destruct (r =? t)%float.
    + rewrite <- app_assoc. reflexivity.
    + reflexivity.
Qed.

Lemma check_metric_filter (name : string) (t : float) (d : Z)
    (ms : list matrix) :
  known_metric name = true ->
  Sequential.check_metric ms t d name = Done (filter (keeps name t d) ms).
Proof.
  intros Hk. unfold Sequential.check_metric.
  rewrite check_metric_loop_filter by assumption. reflexivity.
Qed.

(** ** The pipelines once a count has matched *)

Lemma narrow_exact (name : string) (t : float) (d : Z) (ms : list matrix) :
  known_metric name = true ->
  Sequential.narrow ms t d name = Done (narrowed name t d ms).
Proof.
  intros Hk. unfold Sequential.narrow, narrowed.
  destruct (neqb t unconstrained); [|reflexivity].
  apply check_metric_filter, Hk.
Qed.

Lemma Sequential_pipeline_found (fuel : nat) (a b d : Z)
    (t ts tsp tf1 tp : float) :
  let mmv := find_positives_vs_negatives initial_min_max (a + b) t d in
  max_correct mmv <> -1 -> enough_fuel a mmv fuel ->
  Sequential.reverse_engineer_confusion_matrices fuel a b d t ts tsp tf1 tp =
  Done (narrowed "precision" tp d
          (narrowed "f1" tf1 d
             (narrowed "specificity" tsp d
                (narrowed "sensitivity" ts d (enumeration a b mmv))))).
Proof.
  intros mmv Hfound Hfuel.
  unfold Sequential.reverse_engineer_confusion_matrices. fold mmv.
  apply Z.eqb_neq in Hfound. rewrite Hfound.
  rewrite Sequential_find_matrices_exact by assumption.
  cbn [bind]. repeat (rewrite narrow_exact by reflexivity; cbn [bind]).
  reflexivity.
Qed.

Lemma Fused_pipeline_found (fuel : nat) (a b d : Z)
    (t ts tsp tf1 tp : float) :
  let mmv := find_positives_vs_negatives initial_min_max (a + b) t d in
  max_correct mmv <> -1 -> enough_fuel a mmv fuel ->
  Fused.reverse_engineer_confusion_matrices fuel a b d t ts tsp tf1 tp =
  Done (filter (Fused.passes ts tsp tf1 tp d) (enumeration a b mmv)).
Proof.
  intros mmv Hfound Hfuel.
  unfold Fused.reverse_engineer_confusion_matrices. fold mmv.
  apply Z.eqb_neq in Hfound. rewrite Hfound.
  apply Fused_find_matrices_exact. assumption.
Qed.

(** ** Outcome when no count matches *)

(** C7. When no correct-count in [[1, total]] rounds to the target accuracy,
    the range finder returns the not-found marker (all four cells [-1]) and
    both pipelines stop through [exit(0)] after printing the "no
    combinations" line, a result distinct from every normal return, without
    having produced a single record. *)
Theorem no_match_exits (fuel : nat) (a b d : Z) (t ts tsp tf1 tp : float) :
  0 < a + b -> 0 <= d ->
  (forall c, 1 <= c <= a + b -> accuracy_matches (a + b) t d c = false) ->
  find_positives_vs_negatives initial_min_max (a + b) t d = initial_min_max /\
  Sequential.reverse_engineer_confusion_matrices fuel a b d t ts tsp tf1 tp
    = Exit no_combinations_message /\
  Fused.reverse_engineer_confusion_matrices fuel a b d t ts tsp tf1 tp
    = Exit no_combinations_message /\
  forall records : list matrix,
    Exit no_combinations_message <> Done records.
Proof.
  intros Htotal Hd Hno.
  assert (Hmarker : find_positives_vs_negatives initial_min_max (a + b) t d
                    = initial_min_max).
  { unfold find_positives_vs_negatives. apply scan_down_no_hit.
    intros c Hc. apply Hno. lia. }
  split; [exact Hmarker|].
  unfold Sequential.reverse_engineer_confusion_matrices,
    Fused.reverse_engineer_confusion_matrices.
  rewrite Hmarker. cbn [max_correct initial_min_max].
  change (-1 =? -1) with true. cbv iota.
  repeat split. intros records H. discriminate H.
Qed.

(** The scenario of the specification: class sizes 3 and 3, two decimal
    places, target accuracy 0.99. *)
Lemma no_match_exits_3_3 :
  find_positives_vs_negatives initial_min_max (3 + 3) literal_0_99 2
    = initial_min_max /\
  Sequential.reverse_engineer_confusion_matrices 0 3 3 2 literal_0_99
    unconstrained unconstrained unconstrained unconstrained
    = Exit no_combinations_message /\
  Fused.reverse_engineer_confusion_matrices 0 3 3 2 literal_0_99
    unconstrained unconstrained unconstrained unconstrained
    = Exit no_combinations_message /\
  forall records : list matrix,
    Exit no_combinations_message <> Done records.
Proof.
  apply (no_match_exits 0 3 3 2 literal_0_99); [lia|lia|].
  intros c Hc.
  assert (Hcases : c = 1 \/ c = 2 \/ c = 3 \/ c = 4 \/ c = 5 \/ c = 6)
    by lia.
  destruct Hcases as [->|[->|[->|[->|[->| ->]]]]]; vm_compute; reflexivity.
Defined.

(** ** Termination of the enumeration *)

Lemma trips_combinations (mmv : min_max) : combinations mmv = trips mmv.
Proof.
  unfold combinations, trips. destruct (min_correct mmv =? -1); reflexivity.
Qed.

(** On the array of a first call the outer loop has at least one trip. *)
Lemma trips_positive (total : Z) (t : float) (d : Z) :
  0 <= total ->
  0 < trips (find_positives_vs_negatives initial_min_max total t d).
Proof.
  intros Htotal. unfold find_positives_vs_negatives.
  pose proof (scan_down_initial (accuracy_matches total t d) total total
                Htotal) as [Hunset Hset].
  set (mmv := scan_down _ _ _ _) in *.
  unfold trips. destruct (min_correct mmv =? -1) eqn:Hmin; [lia|].
  apply Z.eqb_neq in Hmin.
  destruct (Z.eq_dec (max_correct mmv) (-1)) as [Hmax|Hmax].
  - destruct (Hunset Hmax) as [Hinit _]. rewrite Hinit in Hmin.
    simpl in Hmin. contradiction.
  - destruct (Hset Hmax) as (_ & _ & _ & _ & _ & Htwo).
    destruct (Htwo Hmin) as (Hlt & _). lia.
Qed.

Lemma transfer_lowers_TP (b : Z) (m : matrix) :
  transfer_guard b m = true -> 0 < TP m /\ TP (transfer m) < TP m.
Proof.
  unfold transfer_guard. rewrite andb_true_iff, !Z.ltb_lt. simpl. lia.
Qed.

(** C10. On the array a first call of the range finder returns, and for
    positive class sizes, the enumeration terminates: with fuel for
    [max(class_a_count, trips)] iterations both files' outer loops return
    after exactly [max_correct - min_correct + 1] trips (one trip when
    [min_correct] is absent) and [find_matrices] returns; every transfer
    happens under [TP > 0] and lowers [TP], so that a sweep started at [m]
    returns within [TP m] iterations. *)
Theorem enumeration_terminates (a b d : Z) (t ts tsp tf1 tp : float)
    (fuel : nat) :
  0 < a -> 0 < b ->
  let mmv := find_positives_vs_negatives initial_min_max (a + b) t d in
  (Z.to_nat (Z.max a (trips mmv)) <= fuel)%nat ->
  0 < trips mmv /\
  (exists st, Sequential.offsets_loop fuel a b mmv
              = Done (Z.to_nat (trips mmv), st)) /\
  (exists st, Fused.offsets_loop a b mmv ts tsp tf1 tp d fuel
              = Done (Z.to_nat (trips mmv), st)) /\
  (exists ms, Sequential.find_matrices fuel a b mmv = Done ms) /\
  (exists rows, Fused.find_matrices a b mmv ts tsp tf1 tp d fuel
                = Done rows) /\
  (forall m, transfer_guard b m = true ->
             0 < TP m /\ TP (transfer m) < TP m) /\
  (forall m acc n, (Z.to_nat (TP m) <= n)%nat ->
     exists k st, Sequential.transfer_sweep n b (m, acc) = Done (k, st) /\
                  (k <= Z.to_nat (TP m))%nat) /\
  (forall m acc n, (Z.to_nat (TP m) <= n)%nat ->
     exists k st, Fused.transfer_sweep b ts tsp tf1 tp d n (m, acc)
                  = Done (k, st) /\
                  (k <= Z.to_nat (TP m))%nat).
Proof.
  intros Ha Hb mmv Hfuel.
  assert (Htrips : 0 < trips mmv) by (apply trips_positive; lia).
  assert (Henough : enough_fuel a mmv fuel)
    by (unfold enough_fuel; rewrite trips_combinations; lia).
  split; [exact Htrips|].
  split.
  { unfold Sequential.offsets_loop.
    rewrite (Sequential_offsets_exact a b mmv fuel (Z.to_nat (trips mmv)));
      [eauto| | |rewrite trips_combinations|]; lia. }
  split.
  { unfold Fused.offsets_loop.
    rewrite (Fused_offsets_exact a b mmv ts tsp tf1 tp d fuel
               (Z.to_nat (trips mmv)));
      [eauto| | |rewrite trips_combinations|]; lia. }
  split.
  { rewrite Sequential_find_matrices_exact by assumption. eauto. }
  split.
  { rewrite Fused_find_matrices_exact by assumption. eauto. }
  split; [apply transfer_lowers_TP|].
  split.
  - intros m acc n Hn. unfold Sequential.transfer_sweep.
    apply (while_loop_terminates (Sequential.sweep_guard b)
             Sequential.sweep_body (fun _ => True)
             (fun st => Z.to_nat (TP (fst st)))); auto.
    intros [m' acc'] _ Hg. unfold Sequential.sweep_guard in Hg.
    apply transfer_lowers_TP in Hg. simpl in *.
    eexists. split; [reflexivity|]. split; [exact I|]. simpl. lia.
  - intros m acc n Hn. unfold Fused.transfer_sweep.
    apply (while_loop_terminates (Fused.sweep_guard b)
             (Fused.sweep_body ts tsp tf1 tp d) (fun _ => True)
             (fun st => Z.to_nat (TP (fst st)))); auto.
    intros [m' acc'] _ Hg. unfold Fused.sweep_guard in Hg.
    apply transfer_lowers_TP in Hg. simpl in *.
    eexists. split; [reflexivity|]. split; [exact I|]. simpl. lia.
Qed.

Lemma enumeration_terminates_10_10 :
  exists ms,
    Sequential.find_matrices 10 10 10
      (find_positives_vs_negatives initial_min_max (10 + 10) 0.75 2)
    = Done ms.
Proof.
  assert (Hfuel :
    (Z.to_nat (Z.max 10 (trips (find_positives_vs_negatives initial_min_max
                                  (10 + 10) 0.75 2))) <= 10)%nat)
    by (vm_compute; lia).
  exact (proj1 (proj2 (proj2 (proj2
    (enumeration_terminates 10 10 2 0.75 unconstrained unconstrained
       unconstrained unconstrained 10 ltac:(lia) ltac:(lia) Hfuel))))).
Defined.

(** ** The range returned by a first call *)

(** C4, as the code has it.  For a positive sample size the first call of
    the range finder returns either the not-found marker, and then no count
    in [[1, total]] matches, or a [max_correct] that matches, is the highest
    matching count and has [min_incorrect] as its complement.  In the second
    case [min_correct] is the lowest matching count, strictly below
    [max_correct], with [max_incorrect] its complement, whenever at least two
    counts match; when exactly one count matches, [min_correct] and
    [max_incorrect] stay absent ([-1]) and [max_correct] is the only matching
    count.  No matching count lies outside the bounds that are present. *)
Theorem range_of_first_call (total : Z) (t : float) (d : Z) :
  0 < total -> 0 <= d ->
  let hit := accuracy_matches total t d in
  let r := find_positives_vs_negatives initial_min_max total t d in
  (max_correct r = -1 ->
     r = initial_min_max /\ forall c, 1 <= c <= total -> hit c = false) /\
  (max_correct r <> -1 ->
     1 <= max_correct r <= total /\ hit (max_correct r) = true /\
     min_incorrect r = total - max_correct r /\
     (forall c, 1 <= c <= total -> hit c = true -> c <= max_correct r) /\
     (min_correct r = -1 ->
        max_incorrect r = -1 /\
        forall c, 1 <= c <= total -> hit c = true -> c = max_correct r) /\
     (min_correct r <> -1 ->
        1 <= min_correct r < max_correct r /\ hit (min_correct r) = true /\
        max_incorrect r = total - min_correct r /\
        forall c, 1 <= c <= total -> hit c = true -> min_correct r <= c)).
Proof.
  intros Htotal Hd hit r.
  pose proof (scan_down_initial hit total total ltac:(lia)) as [Hunset Hset].
  change (scan_down hit total (Z.to_nat total) initial_min_max) with r
    in Hunset, Hset.
  split.
  - intros Hmax. destruct (Hunset Hmax) as [Hinit Hno].
    split; [exact Hinit|]. intros c Hc. apply Hno. lia.
  - intros Hmax.
    destruct (Hset Hmax) as (Hb & Hh & Hmi & Hhigh & Hone & Htwo).
    split; [lia|]. split; [exact Hh|]. split; [exact Hmi|].
    split; [intros c Hc; apply Hhigh; lia|].
    split.
    + intros Hmin. destruct (Hone Hmin) as [Hmx Honly].
      split; [exact Hmx|]. intros c Hc. apply Honly. lia.
    + intros Hmin. destruct (Htwo Hmin) as (Hlt & Hhm & Hmx & Hlow).
      split; [lia|]. split; [exact Hhm|]. split; [exact Hmx|].
      intros c Hc. apply Hlow. lia.
Qed.

Lemma range_of_first_call_20 :
  let hit := accuracy_matches 20 0.75 2 in
  let r := find_positives_vs_negatives initial_min_max 20 0.75 2 in
  (max_correct r = -1 ->
     r = initial_min_max /\ forall c, 1 <= c <= 20 -> hit c = false) /\
  (max_correct r <> -1 ->
     1 <= max_correct r <= 20 /\ hit (max_correct r) = true /\
     min_incorrect r = 20 - max_correct r /\
     (forall c, 1 <= c <= 20 -> hit c = true -> c <= max_correct r) /\
     (min_correct r = -1 ->
        max_incorrect r = -1 /\
        forall c, 1 <= c <= 20 -> hit c = true -> c = max_correct r) /\
     (min_correct r <> -1 ->
        1 <= min_correct r < max_correct r /\ hit (min_correct r) = true /\
        max_incorrect r = 20 - min_correct r /\
        forall c, 1 <= c <= 20 -> hit c = true -> min_correct r <= c)).
Proof.
  apply (range_of_first_call 20 0.75 2); lia.
Defined.

(** C4 as stated fails where exactly one count matches: for 20 samples,
    target 0.75 and two decimal places, 15 is a matching count, yet the
    [min_correct] returned is [-1], which is neither a count in [[1, 20]] nor
    a matching value. *)
Lemma single_match_has_no_min_correct :
  let r := find_positives_vs_negatives initial_min_max 20 0.75 2 in
  accuracy_matches 20 0.75 2 15 = true /\
  min_correct r = -1 /\
  accuracy_matches 20 0.75 2 (min_correct r) = false /\
  ~ (1 <= min_correct r <= 20 /\
     accuracy_matches 20 0.75 2 (min_correct r) = true).
Proof.
  vm_compute. repeat split; try reflexivity.
  intros [[H _] _]. apply H. reflexivity.
Qed.

(** ** The worked example: class sizes 10 and 10, accuracy 0.75 *)

(** C3, as the code has it.  The range finder returns [max_correct = 15] and
    [min_incorrect = 5] and leaves [min_correct] and [max_incorrect] absent;
    the enumeration then emits exactly six records, the seed [(10,0,5,5)]
    and five transfers, the last of which, [(5,5,0,10)], is the one on which
    [TN] reaches [class_b_count]; no record occurs twice. *)
Theorem worked_example (fuel : nat) :
  (10 <= fuel)%nat ->
  let r := find_positives_vs_negatives initial_min_max (10 + 10) 0.75 2 in
  let six := [Matrix 10 0 5 5; Matrix 9 1 4 6; Matrix 8 2 3 7;
              Matrix 7 3 2 8; Matrix 6 4 1 9; Matrix 5 5 0 10] in
  r = MinMax 15 5 (-1) (-1) /\
  Sequential.find_matrices fuel 10 10 r = Done six /\
  Sequential.reverse_engineer_confusion_matrices fuel 10 10 2 0.75
    unconstrained unconstrained unconstrained unconstrained = Done six /\
  NoDup six.
Proof.
  intros Hfuel r six.
  assert (Hr : r = MinMax 15 5 (-1) (-1)) by (vm_compute; reflexivity).
  assert (Henough : enough_fuel 10 r fuel)
    by (rewrite Hr; unfold enough_fuel; simpl; lia).
  split; [exact Hr|]. split; [|split].
  - rewrite Sequential_find_matrices_exact by assumption.
    rewrite Hr. reflexivity.
  - fold r in Henough.
    rewrite Sequential_pipeline_found; fold r; [|rewrite Hr; simpl; lia|assumption].
    rewrite Hr. reflexivity.
  - unfold six.
    repeat (constructor;
            [simpl; intros H;
             repeat (destruct H as [H|H]; [discriminate H|]); exact H|]).
    constructor.
Qed.

Lemma worked_example_fuel_10 :
  let r := find_positives_vs_negatives initial_min_max (10 + 10) 0.75 2 in
  let six := [Matrix 10 0 5 5; Matrix 9 1 4 6; Matrix 8 2 3 7;
              Matrix 7 3 2 8; Matrix 6 4 1 9; Matrix 5 5 0 10] in
  r = MinMax 15 5 (-1) (-1) /\
  Sequential.find_matrices 10 10 10 r = Done six /\
  Sequential.reverse_engineer_confusion_matrices 10 10 10 2 0.75
    unconstrained unconstrained unconstrained unconstrained = Done six /\
  NoDup six.
Proof.
  apply (worked_example 10). lia.
Defined.

(** C3 as stated fails on both counts: the [min_correct] returned is not 15
    but the absent marker, and the enumeration does not stop after
    [(6,4,1,9)]. *)
Lemma worked_example_not_five :
  let r := find_positives_vs_negatives initial_min_max (10 + 10) 0.75 2 in
  min_correct r <> 15 /\
  Sequential.find_matrices 10 10 10 r <>
  Done [Matrix 10 0 5 5; Matrix 9 1 4 6; Matrix 8 2 3 7;
        Matrix 7 3 2 8; Matrix 6 4 1 9].
Proof.
  vm_compute. split; discriminate.
Qed.

(** ** The static array across calls *)

(** C9, as the code has it.  A call whose arguments match no count returns
    the static array exactly as it found it: the not-found marker on the
    first call of a run, the values of the earlier call afterwards. *)
Theorem no_match_keeps_static (static_values : min_max) (total : Z)
    (t : float) (d : Z) :
  (forall c, 1 <= c <= total -> accuracy_matches total t d c = false) ->
  find_positives_vs_negatives static_values total t d = static_values.
Proof.
  intros Hno. unfold find_positives_vs_negatives.
  apply scan_down_no_hit. intros c Hc. apply Hno. lia.
Qed.

Lemma no_match_keeps_static_after_found :
  find_positives_vs_negatives (MinMax 15 5 (-1) (-1)) 6 literal_0_99 2
  = MinMax 15 5 (-1) (-1).
Proof.
  apply (no_match_keeps_static (MinMax 15 5 (-1) (-1)) 6 literal_0_99 2).
  intros c Hc.
  assert (Hcases : c = 1 \/ c = 2 \/ c = 3 \/ c = 4 \/ c = 5 \/ c = 6)
    by lia.
  destruct Hcases as [->|[->|[->|[->|[->| ->]]]]]; vm_compute; reflexivity.
Defined.

(** C9 as stated fails: after a first call for 20 samples and accuracy 0.75
    has found a count, a second call for 6 samples and accuracy 0.99, which
    no count matches, returns the first call's values and not the
    not-found marker. *)
Lemma second_call_returns_stale_values :
  let first := find_positives_vs_negatives initial_min_max 20 0.75 2 in
  let second := find_positives_vs_negatives first 6 literal_0_99 2 in
  max_correct first <> -1 /\
  (forall c, 1 <= c <= 6 -> accuracy_matches 6 literal_0_99 2 c = false) /\
  find_positives_vs_negatives initial_min_max 6 literal_0_99 2
    = initial_min_max /\
  second = first /\
  second <> initial_min_max.
Proof.
  split; [vm_compute; discriminate|].
  split.
  { intros c Hc.
    assert (Hcases : c = 1 \/ c = 2 \/ c = 3 \/ c = 4 \/ c = 5 \/ c = 6)
      by lia.
    destruct Hcases as [->|[->|[->|[->|[->| ->]]]]]; vm_compute; reflexivity. }
  vm_compute. repeat split; try reflexivity. discriminate.
Qed.

(** ** Metrics with a zero denominator *)

Lemma keeps_zero_denominator (name : string) (t : float) (d : Z)
    (m : matrix) :
  zero_denominator name m = true ->
  (0 <=? t)%float = true -> (t <=? 1)%float = true ->
  keeps name t d m = false.
Proof.
  unfold zero_denominator, denominator, keeps, Sequential.metric_result.
  intros Hz H0 H1.
  destruct (String.eqb name "sensitivity");
    [|destruct (String.eqb name "specificity");
      [|destruct (String.eqb name "f1");
        [|destruct (String.eqb name "precision"); [|discriminate]]]];
    apply eqb_non_finite; auto;
    apply round_dp_non_finite, div_zero_non_finite; exact Hz.
Qed.

Lemma passes_zero_denominator (name : string) (ts tsp tf1 tp : float)
    (d : Z) (m : matrix) :
  zero_denominator name m = true ->
  (0 <=? target_of name ts tsp tf1 tp)%float = true ->
  (target_of name ts tsp tf1 tp <=? 1)%float = true ->
  Fused.passes ts tsp tf1 tp d m = false.
Proof.
  unfold zero_denominator, denominator, target_of, Fused.passes,
    Fused.check_metric, neqb.
  intros Hz H0 H1.
  assert (Hkill : forall x tgt,
            (x =? 0)%float = true ->
            (0 <=? tgt)%float = true -> (tgt <=? 1)%float = true ->
            forall y, (round_dp (y / x) d =? tgt)%float = false).
  { intros x tgt Hx Hlo Hhi y. apply eqb_non_finite; auto.
    apply round_dp_non_finite, div_zero_non_finite. exact Hx. }
  destruct (String.eqb name "sensitivity");
    [|destruct (String.eqb name "specificity");
      [|destruct (String.eqb name "f1");
        [|destruct (String.eqb name "precision"); [|discriminate]]]];
    rewrite (Hkill _ _ Hz H0 H1); simpl;
    repeat match goal with |- context [if ?c then false else false] =>
      destruct c end; reflexivity.
Qed.

(** C6. A matrix on which the formula of a metric has a zero denominator is
    never retained when that metric's target lies in [[0, 1]]: the division
    yields NaN or an infinity, rounding keeps it so, and the comparison with
    the target is false.  The sequential filter then returns normally with
    a vector that does not contain the matrix, and the fused check returns
    [false]; neither takes an exit or fails. *)
Theorem undefined_metric_never_kept (name : string) (m : matrix) (t : float)
    (d : Z) :
  zero_denominator name m = true ->
  (0 <=? t)%float = true -> (t <=? 1)%float = true ->
  (forall ms, exists kept,
     Sequential.check_metric ms t d name = Done kept /\ ~ In m kept) /\
  (forall ts tsp tf1 tp,
     target_of name ts tsp tf1 tp = t ->
     Fused.check_metric (of_int (TP m)) (of_int (FN m)) (of_int (FP m))
       (of_int (TN m)) ts tsp tf1 tp d = false).
Proof.
  intros Hz H0 H1. split.
  - intros ms. exists (filter (keeps name t d) ms). split.
    + apply check_metric_filter.
      unfold zero_denominator, denominator in Hz. unfold known_metric.
      destruct (String.eqb name "sensitivity"); [reflexivity|].
      destruct (String.eqb name "specificity"); [reflexivity|].
      destruct (String.eqb name "f1"); [reflexivity|].
      destruct (String.eqb name "precision"); [reflexivity|discriminate].
    + rewrite filter_In. intros [_ Hk].
      rewrite keeps_zero_denominator in Hk by assumption. discriminate.
  - intros ts tsp tf1 tp Ht.
    apply (passes_zero_denominator name ts tsp tf1 tp d m Hz);
      rewrite Ht; assumption.
Qed.

(** On counts that are all zero where the formula adds them, the
    denominator is zero: for instance [TP = 0] and [FP = 0] for precision. *)
Lemma zero_counts_zero_denominator (m : matrix) :
  (TP m = 0 -> FN m = 0 -> zero_denominator "sensitivity" m = true) /\
  (TN m = 0 -> FP m = 0 -> zero_denominator "specificity" m = true) /\
  (TP m = 0 -> FP m = 0 -> FN m = 0 -> zero_denominator "f1" m = true) /\
  (TP m = 0 -> FP m = 0 -> zero_denominator "precision" m = true).
Proof.
  unfold zero_denominator, denominator. cbn [String.eqb Ascii.eqb Bool.eqb].
  repeat split; intros; repeat match goal with H : _ = 0 |- _ =>
    rewrite H; clear H end; reflexivity.
Qed.

(** Precision is undefined on a matrix with [TP = 0] and [FP = 0]. *)
Lemma undefined_precision_never_kept :
  (forall ms, exists kept,
     Sequential.check_metric ms 0.5 2 "precision" = Done kept /\
     ~ In (Matrix 0 10 0 10) kept) /\
  (forall ts tsp tf1 tp,
     target_of "precision" ts tsp tf1 tp = 0.5%float ->
     Fused.check_metric (of_int 0) (of_int 10) (of_int 0) (of_int 10)
       ts tsp tf1 tp 2 = false).
Proof.
  apply (undefined_metric_never_kept "precision" (Matrix 0 10 0 10) 0.5 2);
    vm_compute; reflexivity.
Defined.

(** ** The sentinel in the fused check *)

Lemma check_metric_sentinel_rejects (TP FN FP TN ts tsp tf1 tp : float)
    (d : Z) :
  (ts =? unconstrained)%float = true \/ (tsp =? unconstrained)%float = true \/
  (tf1 =? unconstrained)%float = true \/ (tp =? unconstrained)%float = true ->
  Fused.check_metric TP FN FP TN ts tsp tf1 tp d = false.
Proof.
  unfold Fused.check_metric.
  intros [H|[H|[H|H]]]; rewrite H, orb_true_r;
    repeat match goal with |- context [if ?c then false else false] =>
      destruct c end; reflexivity.
Qed.

Lemma narrowed_unconstrained (name : string) (d : Z) (ms : list matrix) :
  narrowed name unconstrained d ms = ms.
Proof. reflexivity. Qed.

(** When every optional target is constrained the fused check is the
    conjunction of the four sequential tests. *)
Lemma passes_all_constrained (ts tsp tf1 tp : float) (d : Z) (m : matrix) :
  (ts =? unconstrained)%float = false ->
  (tsp =? unconstrained)%float = false ->
  (tf1 =? unconstrained)%float = false ->
  (tp =? unconstrained)%float = false ->
  Fused.passes ts tsp tf1 tp d m =
  keeps "sensitivity" ts d m && keeps "specificity" tsp d m
  && keeps "f1" tf1 d m && keeps "precision" tp d m.
Proof.
  intros Hs Hsp Hf Hp.
  unfold Fused.passes, Fused.check_metric, keeps, Sequential.metric_result,
    neqb.
  rewrite Hs, Hsp, Hf, Hp, !orb_false_r. cbn [String.eqb Ascii.eqb Bool.eqb].
  destruct (round_dp _ d =? ts)%float; destruct (round_dp _ d =? tsp)%float;
    destruct (round_dp _ d =? tf1)%float; destruct (round_dp _ d =? tp)%float;
    reflexivity.
Qed.

Lemma filter_filter {A : Type} (p q : A -> bool) (l : list A) :
  filter p (filter q l) = filter (fun x => q x && p x) l.
Proof.
  induction l as [|x l IH]; simpl; [reflexivity|].
  destruct (q x); simpl; [destruct (p x)|]; rewrite IH; reflexivity.
Qed.

(** With all four optional targets constrained and enough fuel the two
    pipelines produce the same list. *)
Lemma pipelines_agree_when_all_constrained (fuel : nat) (a b d : Z)
    (t ts tsp tf1 tp : float) :
  (ts =? unconstrained)%float = false ->
  (tsp =? unconstrained)%float = false ->
  (tf1 =? unconstrained)%float = false ->
  (tp =? unconstrained)%float = false ->
  enough_fuel a (find_positives_vs_negatives initial_min_max (a + b) t d)
    fuel ->
  Fused.reverse_engineer_confusion_matrices fuel a b d t ts tsp tf1 tp =
  Sequential.reverse_engineer_confusion_matrices fuel a b d t ts tsp tf1 tp.
Proof.
  intros Hs Hsp Hf Hp Hfuel.
  set (mmv := find_positives_vs_negatives initial_min_max (a + b) t d) in *.
  destruct (Z.eq_dec (max_correct mmv) (-1)) as [Hnone|Hfound].
  - unfold Fused.reverse_engineer_confusion_matrices,
      Sequential.reverse_engineer_confusion_matrices.
    fold mmv. rewrite Hnone. reflexivity.
  - rewrite Fused_pipeline_found, Sequential_pipeline_found by assumption.
    fold mmv. unfold narrowed, neqb. rewrite Hs, Hsp, Hf, Hp. cbn [negb].
    rewrite !filter_filter. f_equal. apply filter_ext.
    intros m. rewrite !andb_assoc. apply passes_all_constrained; assumption.
Qed.

(** ** What every enumerated matrix satisfies *)

(** A member of the enumeration is the base matrix of some offset, shifted
    by at most as many transfers as the guard allows. *)
Lemma enumeration_In (a b : Z) (mmv : min_max) (m : matrix) :
  In m (enumeration a b mmv) ->
  exists i j,
    0 <= i < combinations mmv /\
    0 <= j <= Z.of_nat (sweep_count b (base_matrix a b mmv i)) /\
    m = Matrix (TP (base_matrix a b mmv i) - j)
               (FN (base_matrix a b mmv i) + j)
               (FP (base_matrix a b mmv i) - j)
               (TN (base_matrix a b mmv i) + j).
Proof.
  unfold enumeration. rewrite in_flat_map. intros (i & Hi & Hm).
  apply zrange_In in Hi. exists i.
  unfold offset_matrices in Hm. destruct Hm as [<-|Hm].
  - exists 0. split; [lia|]. split; [lia|].
    destruct (base_matrix a b mmv i). simpl. f_equal; lia.
  - apply sweep_tail_In in Hm. destruct Hm as (j & Hj & ->).
    exists j. split; [lia|]. split; [lia|]. reflexivity.
Qed.

(** The row and column sums, and the total of correct predictions, of every
    enumerated matrix. *)
Lemma enumeration_sums (a b : Z) (mmv : min_max) (m : matrix) :
  In m (enumeration a b mmv) ->
  TP m + FN m = a /\ FP m + TN m = b /\
  exists i, 0 <= i < combinations mmv /\
            TP m + TN m = a + b - min_incorrect mmv - i.
Proof.
  intros Hin. destruct (enumeration_In a b mmv m Hin) as (i & j & Hi & Hj & ->).
  unfold base_matrix. simpl.
  split; [lia|]. split; [lia|]. exists i. split; [lia|].
  destruct (max_correct mmv - i <? a); lia.
Qed.

(** On the array of a first call only [TP] can be negative, and only on the
    base matrix of an offset above [class_a_count]. *)
Lemma enumeration_signs (a b d : Z) (t : float) (m : matrix) :
  0 < a -> 0 < b ->
  max_correct (find_positives_vs_negatives initial_min_max (a + b) t d)
    <> -1 ->
  In m (enumeration a b
          (find_positives_vs_negatives initial_min_max (a + b) t d)) ->
  0 <= FN m /\ 0 <= FP m /\ 0 <= TN m /\
  (TP m < 0 ->
     exists i, a < i /\
       m = base_matrix a b
             (find_positives_vs_negatives initial_min_max (a + b) t d) i).
Proof.
  intros Ha Hb Hmax Hin.
  pose proof (scan_down_initial (accuracy_matches (a + b) t d) (a + b)
                (a + b) ltac:(lia)) as [Hunset Hset].
  change (scan_down _ _ _ _)
    with (find_positives_vs_negatives initial_min_max (a + b) t d)
    in Hunset, Hset.
  set (mmv := find_positives_vs_negatives initial_min_max (a + b) t d) in *.
  destruct (enumeration_In a b mmv m Hin) as (i & j & Hi & Hj & ->).
  assert (Hbase :
    0 <= FN (base_matrix a b mmv i) /\ 0 <= TN (base_matrix a b mmv i) /\
    0 <= FP (base_matrix a b mmv i) /\
    FP (base_matrix a b mmv i) + TN (base_matrix a b mmv i) = b /\
    (TP (base_matrix a b mmv i) < 0 -> a < i)).
  { unfold combinations in Hi. unfold base_matrix. simpl.
    destruct (Hset Hmax) as (Hbd & _ & Hmi & _ & _ & Htwo).
    assert (Hi' : i < max_correct mmv).
    { destruct (min_correct mmv =? -1) eqn:Hmin; simpl in Hi; [lia|].
      apply Z.eqb_neq in Hmin. destruct (Htwo Hmin) as (Hlt & _). lia. }
    destruct (max_correct mmv - i <? a) eqn:E;
      [apply Z.ltb_lt in E|apply Z.ltb_ge in E]; lia. }
  destruct Hbase as (HFN & HTN & HFP & Hsum & HTP).
  unfold sweep_count in Hj.
  assert (Hj' : j = 0 \/ (0 < j /\ j <= TP (base_matrix a b mmv i) /\
                          j <= b - TN (base_matrix a b mmv i))) by lia.
  cbn [FN FP TN TP].
  split; [lia|]. split; [lia|]. split; [lia|].
  intros Hneg. exists i.
  destruct Hj' as [->|Hpos]; [|lia].
  split; [apply HTP; lia|].
  destruct (base_matrix a b mmv i). simpl. f_equal; lia.
Qed.

(** ** Defects shown on concrete inputs *)

(** C1.  With every optional target set to the sentinel the sequential
    pipeline keeps all six candidates of the worked example, as the claim
    requires, whereas the fused check answers [false] on each of them and
    the fused pipeline writes no row at all. *)
Theorem fused_sentinel_drops_all_rows :
  Sequential.reverse_engineer_confusion_matrices 10 10 10 2 0.75
    unconstrained unconstrained unconstrained unconstrained
  = Done [Matrix 10 0 5 5; Matrix 9 1 4 6; Matrix 8 2 3 7;
          Matrix 7 3 2 8; Matrix 6 4 1 9; Matrix 5 5 0 10] /\
  Fused.reverse_engineer_confusion_matrices 10 10 10 2 0.75
    unconstrained unconstrained unconstrained unconstrained
  = Done [] /\
  Fused.check_metric (of_int 10) (of_int 0) (of_int 5) (of_int 5)
    unconstrained unconstrained unconstrained unconstrained 2 = false.
Proof. vm_compute. repeat split. Qed.

(** C8.  With target sensitivity 1.0 and the other three targets set to the
    sentinel the sequential pipeline retains [(10,0,5,5)] and the fused
    pipeline emits nothing. *)
Theorem pipelines_differ_on_sentinel :
  Sequential.reverse_engineer_confusion_matrices 10 10 10 2 0.75
    1 unconstrained unconstrained unconstrained
  = Done [Matrix 10 0 5 5] /\
  Fused.reverse_engineer_confusion_matrices 10 10 10 2 0.75
    1 unconstrained unconstrained unconstrained
  = Done [].
Proof. vm_compute. repeat split. Qed.

(** C2.  For class sizes 1 and 5, zero decimal places and target accuracy
    1.0 the counts 3 to 6 match; the base matrices of offsets 2 and 3 have
    [TP = -1] and [TP = -2] and are emitted.  The fused file emits such a
    row as well, for class sizes 6 and 8 and targets that are all in
    [[0, 1]]. *)
Theorem negative_base_matrix_emitted :
  find_positives_vs_negatives initial_min_max (1 + 5) 1 0 = MinMax 6 0 3 3 /\
  Sequential.find_matrices 4 1 5
    (find_positives_vs_negatives initial_min_max (1 + 5) 1 0)
  = Done [Matrix 1 0 0 5; Matrix 0 1 0 5; Matrix (-1) 2 0 5;
          Matrix (-2) 3 0 5] /\
  Sequential.reverse_engineer_confusion_matrices 4 1 5 0 1
    unconstrained unconstrained unconstrained unconstrained
  = Done [Matrix 1 0 0 5; Matrix 0 1 0 5; Matrix (-1) 2 0 5;
          Matrix (-2) 3 0 5] /\
  Fused.reverse_engineer_confusion_matrices 8 6 8 0 1 0 1 0 1
  = Done [Matrix 1 5 0 8; Matrix (-1) 7 0 8].
Proof. vm_compute. repeat split. Qed.

(** The sequential pipeline does what C1 asks: a candidate that passes the
    test of every constrained target is retained, whatever its metrics are
    where the target is the sentinel. *)
Lemma narrowed_In (name : string) (t : float) (d : Z) (ms : list matrix)
    (m : matrix) :
  In m ms ->
  (t =? unconstrained)%float = true \/ keeps name t d m = true ->
  In m (narrowed name t d ms).
Proof.
  intros Hin Hok. unfold narrowed, neqb.
  destruct (t =? unconstrained)%float eqn:Ht; simpl; [exact Hin|].
  destruct Hok as [Habs|Hk]; [discriminate|].
  apply filter_In. split; assumption.
Qed.

Lemma Sequential_retains_when_unconstrained (fuel : nat) (a b d : Z)
    (t ts tsp tf1 tp : float) (m : matrix) :
  let mmv := find_positives_vs_negatives initial_min_max (a + b) t d in
  max_correct mmv <> -1 -> enough_fuel a mmv fuel ->
  In m (enumeration a b mmv) ->
  (ts =? unconstrained)%float = true \/ keeps "sensitivity" ts d m = true ->
  (tsp =? unconstrained)%float = true \/ keeps "specificity" tsp d m = true ->
  (tf1 =? unconstrained)%float = true \/ keeps "f1" tf1 d m = true ->
  (tp =? unconstrained)%float = true \/ keeps "precision" tp d m = true ->
  exists ms,
    Sequential.reverse_engineer_confusion_matrices fuel a b d t ts tsp tf1 tp
    = Done ms /\ In m ms.
Proof.
  intros mmv Hfound Hfuel Hin Hs Hsp Hf Hp.
  eexists. split; [apply Sequential_pipeline_found; assumption|].
  fold mmv. repeat apply narrowed_In; assumption.
Qed.

(** ** Monotonicity of binary64 rounding

    Powers of two. *)

Lemma bpow_gt_0 (e : Z) : (0 < bpow e)%R.
Proof. apply powerRZ_lt. lra. Qed.

Lemma bpow_plus (a b : Z) : bpow (a + b) = (bpow a * bpow b)%R.
Proof. apply powerRZ_add. lra. Qed.

Lemma bpow_succ (e : Z) : bpow (e + 1) = (2 * bpow e)%R.
Proof. rewrite bpow_plus. unfold bpow at 2. simpl. lra. Qed.

Lemma bpow_IZR (n : Z) : 0 <= n -> bpow n = IZR (2 ^ n).
Proof.
  intros Hn. unfold bpow. rewrite <- (Z2Nat.id n Hn) at 1.
  rewrite <- pow_powerRZ. rewrite <- (Z2Nat.id n Hn) at 2.
  rewrite <- Zpower_nat_Z. 
  induction (Z.to_nat n) as [|k IH].
  - simpl. reflexivity.
  - rewrite Zpower_nat_succ_r, mult_IZR, <- IH. simpl. reflexivity.
Qed.

Lemma bpow_le (a b : Z) : a <= b -> (bpow a <= bpow b)%R.
Proof.
  intros H. replace b with (a + (b - a)) by lia.
  rewrite bpow_plus. rewrite (bpow_IZR (b - a)) by lia.
  assert (1 <= 2 ^ (b - a)) by (pose proof (Z.pow_pos_nonneg 2 (b - a)); lia).
  apply IZR_le in H0. pose proof (bpow_gt_0 a). nra.
Qed.

Lemma bpow_lt (a b : Z) : a < b -> (bpow a < bpow b)%R.
Proof.
  intros H. replace b with (a + 1 + (b - a - 1)) by lia.
  rewrite bpow_plus, bpow_succ.
  pose proof (bpow_le 0 (b - a - 1) ltac:(lia)).
  change (bpow 0) with 1%R in H0. pose proof (bpow_gt_0 a). nra.
Qed.

Lemma bpow_lt_inv (a b : Z) : (bpow a < bpow b)%R -> a < b.
Proof.
  intros H. destruct (Z_lt_le_dec a b); [assumption|].
  apply bpow_le in l. lra.
Qed.

(** Number of binary digits. *)

Lemma digits2_pos_size (p : positive) : digits2_pos p = Pos.size p.
Proof. induction p; simpl; congruence. Qed.

Lemma Zdigits2_log2 (m : Z) : 0 < m -> Zdigits2 m = Z.log2 m + 1.
Proof.
  destruct m as [|p|p]; try lia. intros _. simpl.
  rewrite digits2_pos_size. destruct p; simpl; lia.
Qed.

Lemma Zdigits2_nonneg (m : Z) : 0 <= Zdigits2 m.
Proof. destruct m; simpl; lia. Qed.

Lemma Zdigits2_pos (m : Z) : 0 < m -> 0 < Zdigits2 m.
Proof. destruct m; simpl; lia. Qed.

Lemma Zdigits2_spec (m : Z) :
  0 < m -> 2 ^ (Zdigits2 m - 1) <= m < 2 ^ Zdigits2 m.
Proof.
  intros Hm. rewrite Zdigits2_log2 by assumption.
  replace (Z.log2 m + 1 - 1) with (Z.log2 m) by lia.
  apply Z.log2_spec. assumption.
Qed.

Lemma Zdigits2_le (a b : Z) : 0 <= a <= b -> Zdigits2 a <= Zdigits2 b.
Proof.
  intros [Ha Hab]. destruct (Z.eq_dec a 0) as [->|Hne].
  - apply Zdigits2_nonneg.
  - rewrite !Zdigits2_log2 by lia.
    pose proof (Z.log2_le_mono a b Hab). lia.
Qed.

Lemma Zdigits2_bpow (m : Z) :
  0 < m ->
  (bpow (Zdigits2 m - 1) <= IZR m /\ IZR (m + 1) <= bpow (Zdigits2 m))%R.
Proof.
  intros Hm. pose proof (Zdigits2_spec m Hm) as [Hlo Hhi].
  pose proof (Zdigits2_pos m Hm).
  rewrite !bpow_IZR by lia. split; apply IZR_le; lia.
Qed.

(** Locations and right shifts. *)

Lemma inb_bounds (m e : Z) (l : location) (x : R) :
  inb m e l x -> (F2R m e <= x < F2R m e + bpow e)%R.
Proof.
  pose proof (bpow_gt_0 e).
  destruct l as [|[| |]]; simpl; intros; lra.
Qed.

Lemma F2R_succ (m e : Z) : F2R (m + 1) e = (F2R m e + bpow e)%R.
Proof. unfold F2R. rewrite plus_IZR. lra. Qed.

Lemma F2R_double (m e : Z) : F2R (2 * m) e = F2R m (e + 1).
Proof. unfold F2R. rewrite mult_IZR, bpow_succ. lra. Qed.

Lemma shr_1_inb (mrs : shr_record) (e : Z) (x : R) :
  0 <= shr_m mrs -> inb_rec mrs e x ->
  inb_rec (shr_1 mrs) (e + 1) x /\ 0 <= shr_m (shr_1 mrs) /\
  shr_m (shr_1 mrs) = shr_m mrs / 2.
Proof.
  destruct mrs as [m r s]. intros Hm Hin. unfold inb_rec in *.
  cbn [shr_m] in Hm, Hin.
  assert (Hsplit : exists q b, m = 2 * q + Z.b2z b /\ 0 <= q /\
            shr_1 (Build_shr_record m r s) = Build_shr_record q b (r || s)).
  { destruct m as [|[p|p|]|p]; try lia.
    - exists 0, false. simpl. auto with zarith.
    - exists (Zpos p), true. simpl. split; [lia|]. split; [lia|reflexivity].
    - exists (Zpos p), false. simpl. split; [lia|]. split; [lia|reflexivity].
    - exists 0, true. simpl. split; [lia|]. split; [lia|reflexivity]. }
  destruct Hsplit as (q & b & Hmq & Hq & Hshr). rewrite Hshr.
  cbn [shr_m]. split; [|split; [assumption|]].
  - assert (HF : F2R m e = (F2R q (e + 1) + IZR (Z.b2z b) * bpow e)%R).
    { subst m. unfold F2R. rewrite plus_IZR, mult_IZR, bpow_succ. lra. }
    pose proof (bpow_gt_0 e). pose proof (bpow_succ e).
    destruct r, s, b; simpl in *; rewrite HF in Hin; lra.
  - apply (Z.div_unique m 2 q (Z.b2z b)); [destruct b; simpl; lia|exact Hmq].
Qed.

Lemma iter_pos_shr_1_inb (n : positive) : forall mrs e x,
  0 <= shr_m mrs -> inb_rec mrs e x ->
  inb_rec (SpecFloat.iter_pos shr_1 n mrs) (e + Zpos n) x /\
  0 <= shr_m (SpecFloat.iter_pos shr_1 n mrs) /\
  shr_m (SpecFloat.iter_pos shr_1 n mrs) = shr_m mrs / 2 ^ Zpos n.
Proof.
  induction n as [n IH|n IH|]; intros mrs e x Hm Hin.
  - change (SpecFloat.iter_pos shr_1 n~1 mrs)
      with (SpecFloat.iter_pos shr_1 n (SpecFloat.iter_pos shr_1 n (shr_1 mrs))).
    destruct (shr_1_inb mrs e x Hm Hin) as (H1 & H1m & H1e).
    destruct (IH _ _ _ H1m H1) as (H2 & H2m & H2e).
    destruct (IH _ _ _ H2m H2) as (H3 & H3m & H3e).
    replace (e + Z.pos n~1) with (e + 1 + Z.pos n + Z.pos n) by lia.
    split; [assumption|]. split; [assumption|].
    rewrite H3e, H2e, H1e.
    rewrite !Z.div_div by lia. f_equal.
    replace (Z.pos n~1) with (1 + Z.pos n + Z.pos n) by lia.
    rewrite !Z.pow_add_r by lia. lia.
  - change (SpecFloat.iter_pos shr_1 n~0 mrs)
      with (SpecFloat.iter_pos shr_1 n (SpecFloat.iter_pos shr_1 n mrs)).
    destruct (IH _ _ _ Hm Hin) as (H2 & H2m & H2e).
    destruct (IH _ _ _ H2m H2) as (H3 & H3m & H3e).
    replace (e + Z.pos n~0) with (e + Z.pos n + Z.pos n) by lia.
    split; [assumption|]. split; [assumption|].
    rewrite H3e, H2e.
    rewrite !Z.div_div by lia. f_equal.
    replace (Z.pos n~0) with (Z.pos n + Z.pos n) by lia.
    rewrite !Z.pow_add_r by lia. lia.
  - change (SpecFloat.iter_pos shr_1 1 mrs) with (shr_1 mrs).
    destruct (shr_1_inb mrs e x Hm Hin) as (H1 & H1m & H1e).
    split; [assumption|]. split; [assumption|]. exact H1e.
Qed.

Lemma loc_of_shr_record_of_loc (m : Z) (l : location) :
  loc_of_shr_record (shr_record_of_loc m l) = l /\
  shr_m (shr_record_of_loc m l) = m.
Proof. destruct l as [|[| |]]; simpl; auto. Qed.

(** A shift by [n] places: the exponent grows by [n], the mantissa is
    divided by [2^n], the real located stays the same. *)
Lemma shr_inb (m e n : Z) (l : location) (x : R) :
  0 <= m -> inb m e l x -> 0 <= n ->
  inb_rec (fst (shr (shr_record_of_loc m l) e n)) (snd (shr (shr_record_of_loc m l) e n)) x /\
  snd (shr (shr_record_of_loc m l) e n) = e + n /\
  shr_m (fst (shr (shr_record_of_loc m l) e n)) = m / 2 ^ n.
Proof.
  intros Hm Hin Hn.
  destruct (loc_of_shr_record_of_loc m l) as [Hl Hmm].
  destruct n as [|p|p]; try lia; simpl shr; cbn [fst snd].
  - unfold inb_rec. rewrite Hl, Hmm, Z.add_0_r, Z.div_1_r. auto.
  - destruct (iter_pos_shr_1_inb p (shr_record_of_loc m l) e x) as (H1 & H2 & H3).
    + rewrite Hmm. assumption.
    + unfold inb_rec. rewrite Hl, Hmm. assumption.
    + rewrite Hmm in H3. auto.
Qed.

(** Canonical exponents. *)

Lemma fexp_eq (k : Z) : fexp k = Z.max (k - 53) (-1074).
Proof. reflexivity. Qed.

Lemma F2R_le (m n e : Z) : m <= n -> (F2R m e <= F2R n e)%R.
Proof.
  intros H. unfold F2R. apply IZR_le in H. pose proof (bpow_gt_0 e). nra.
Qed.

Lemma F2R_lt_inv (m n e : Z) : (F2R m e < F2R n e)%R -> m < n.
Proof.
  intros H. destruct (Z_lt_le_dec m n) as [|Hle]; [assumption|].
  apply (F2R_le _ _ e) in Hle. lra.
Qed.

Lemma F2R_le_inv (m n e : Z) : (F2R m e <= F2R n e)%R -> m <= n.
Proof.
  intros H. destruct (Z_le_gt_dec m n) as [|Hgt]; [assumption|].
  assert (Hlt : n < m) by lia. unfold F2R in H.
  apply IZR_lt in Hlt. pose proof (bpow_gt_0 e). nra.
Qed.

Lemma F2R_bpow (k e : Z) : 0 <= k -> F2R (2 ^ k) e = bpow (e + k).
Proof.
  intros Hk. unfold F2R. rewrite <- bpow_IZR by assumption.
  rewrite bpow_plus. lra.
Qed.

Lemma F2R_0 (e : Z) : F2R 0 e = 0%R.
Proof. unfold F2R. lra. Qed.

Lemma F2R_pos (m e : Z) : 0 < m -> (0 < F2R m e)%R.
Proof.
  intros H. unfold F2R. apply IZR_lt in H. pose proof (bpow_gt_0 e). nra.
Qed.

Lemma inb_pos_digits (m e : Z) (l : location) (x : R) :
  0 < m -> inb m e l x ->
  (bpow (Zdigits2 m + e - 1) <= x < bpow (Zdigits2 m + e))%R.
Proof.
  intros Hm Hin. apply inb_bounds in Hin.
  destruct (Zdigits2_bpow m Hm) as [Hlo Hhi].
  replace (Zdigits2 m + e - 1) with ((Zdigits2 m - 1) + e) by lia.
  rewrite !bpow_plus. rewrite <- F2R_succ in Hin. unfold F2R in Hin.
  pose proof (bpow_gt_0 e). split; nra.
Qed.

Lemma shr_fexp_spec (m e : Z) (l : location) (x : R) :
  0 <= m -> inb m e l x -> e <= fexp (Zdigits2 m + e) ->
  inb_rec (fst (shr_fexp prec emax m e l)) (snd (shr_fexp prec emax m e l)) x /\
  0 <= shr_m (fst (shr_fexp prec emax m e l)) /\
  snd (shr_fexp prec emax m e l) = fexp (Zdigits2 m + e) /\
  canon_x (snd (shr_fexp prec emax m e l)) x.
Proof.
  intros Hm Hin He. unfold shr_fexp.
  destruct (shr_inb m e (fexp (Zdigits2 m + e) - e) l x Hm Hin ltac:(lia))
    as (H1 & H2 & H3).
  split; [exact H1|]. split.
  { rewrite H3. apply Z.div_pos; [assumption|]. apply Z.pow_pos_nonneg; lia. }
  rewrite H2. split; [lia|].
  replace (e + (fexp (Zdigits2 m + e) - e)) with (fexp (Zdigits2 m + e))
    by lia.
  unfold canon_x. rewrite fexp_eq in *.
  change emin with (-1074). change prec with 53.
  destruct (Z.eq_dec m 0) as [->|Hne].
  - simpl Zdigits2 in *. apply inb_bounds in Hin. rewrite F2R_0 in Hin.
    assert (Hlt : (x < bpow (-1074))%R).
    { pose proof (bpow_le e (-1074) ltac:(lia)). lra. }
    split; [lia|]. split.
    + pose proof (bpow_le (-1074) (Z.max (0 + e - 53) (-1074) + 53)
                    ltac:(lia)). lra.
    + intros. lia.
  - destruct (inb_pos_digits m e l x ltac:(lia) Hin) as [Hlo Hhi].
    split; [lia|]. split.
    + pose proof (bpow_le (Zdigits2 m + e)
                    (Z.max (Zdigits2 m + e - 53) (-1074) + 53) ltac:(lia)).
      lra.
    + intros Hgt.
      replace (Z.max (Zdigits2 m + e - 53) (-1074) + 53 - 1)
        with (Zdigits2 m + e - 1) by lia.
      exact Hlo.
Qed.

Lemma canon_x_mantissa (m e : Z) (l : location) (x : R) :
  canon_x e x -> inb m e l x -> 0 <= m ->
  m + 1 <= 2 ^ prec /\ (emin < e -> 2 ^ (prec - 1) <= m).
Proof.
  intros (He & Hhi & Hlo) Hin Hm. apply inb_bounds in Hin.
  rewrite <- F2R_succ in Hin. split.
  - assert (F2R m e < F2R (2 ^ prec) e)%R
      by (rewrite F2R_bpow by (unfold prec; lia); lra).
    apply F2R_lt_inv in H. lia.
  - intros Hgt. specialize (Hlo Hgt).
    assert (F2R (2 ^ (prec - 1)) e < F2R (m + 1) e)%R.
    { rewrite F2R_bpow by (unfold prec; lia).
      replace (e + (prec - 1)) with (e + prec - 1) by lia. lra. }
    apply F2R_lt_inv in H. lia.
Qed.

Lemma canon_x_digits (m e : Z) (l : location) (x : R) :
  canon_x e x -> inb m e l x -> 0 < m ->
  fexp (Zdigits2 m + e) = e.
Proof.
  intros Hc Hin Hm.
  destruct (canon_x_mantissa m e l x Hc Hin ltac:(lia)) as [Hhi Hlo].
  destruct Hc as (He & _ & _).
  pose proof (Zdigits2_spec m Hm) as [Dlo Dhi].
  pose proof (Zdigits2_pos m Hm) as Dpos.
  assert (HD : Zdigits2 m <= prec).
  { destruct (Z_le_gt_dec (Zdigits2 m) prec); [assumption|].
    assert (2 ^ prec <= 2 ^ (Zdigits2 m - 1))
      by (apply Z.pow_le_mono_r; lia). lia. }
  rewrite fexp_eq. change emin with (-1074) in *. change prec with 53 in *.
  destruct (Z.eq_dec e (-1074)) as [->|Hne]; [lia|].
  specialize (Hlo ltac:(lia)).
  assert (53 <= Zdigits2 m).
  { destruct (Z_le_gt_dec 53 (Zdigits2 m)); [assumption|].
    assert (2 ^ Zdigits2 m <= 2 ^ (53 - 1))
      by (apply Z.pow_le_mono_r; lia). lia. }
  lia.
Qed.

Lemma canon_x_exp_le (e1 e2 : Z) (x1 x2 : R) :
  canon_x e1 x1 -> canon_x e2 x2 -> (x1 <= x2)%R -> e1 <= e2.
Proof.
  intros (He1 & Hhi1 & Hlo1) (He2 & Hhi2 & Hlo2) Hx.
  destruct (Z_le_gt_dec e1 e2); [assumption|].
  specialize (Hlo1 ltac:(lia)).
  assert (bpow (e1 + prec - 1) < bpow (e2 + prec))%R by lra.
  apply bpow_lt_inv in H. lia.
Qed.

Lemma rne_bounds (m : Z) (l : location) : m <= rne m l <= m + 1.
Proof.
  unfold round_nearest_even.
  destruct l as [|[| |]]; try lia. destruct (Z.even m); lia.
Qed.

Lemma rne_mono_loc (m e : Z) (l1 l2 : location) (x1 x2 : R) :
  inb m e l1 x1 -> inb m e l2 x2 -> (x1 <= x2)%R -> rne m l1 <= rne m l2.
Proof.
  pose proof (bpow_gt_0 e).
  unfold round_nearest_even.
  destruct l1 as [|[| |]], l2 as [|[| |]]; simpl; intros H1 H2 Hx;
    try lia; try lra; destruct (Z.even m); try lia.
Qed.

(** Rounding the mantissa at the canonical exponent is monotone. *)
Lemma rne_mono (m1 e1 m2 e2 : Z) (l1 l2 : location) (x1 x2 : R) :
  canon_x e1 x1 -> inb m1 e1 l1 x1 -> 0 <= m1 ->
  canon_x e2 x2 -> inb m2 e2 l2 x2 -> 0 <= m2 ->
  (x1 <= x2)%R ->
  (F2R (rne m1 l1) e1 <= F2R (rne m2 l2) e2)%R.
Proof.
  intros Hc1 Hi1 Hm1 Hc2 Hi2 Hm2 Hx.
  pose proof (canon_x_exp_le _ _ _ _ Hc1 Hc2 Hx) as He.
  pose proof (rne_bounds m1 l1). pose proof (rne_bounds m2 l2).
  destruct (Z.eq_dec e1 e2) as [->|Hne].
  - apply F2R_le.
    pose proof (inb_bounds _ _ _ _ Hi1). pose proof (inb_bounds _ _ _ _ Hi2).
    rewrite <- F2R_succ in *.
    assert (Hlt : (F2R m1 e2 < F2R (m2 + 1) e2)%R) by lra.
    apply F2R_lt_inv in Hlt.
    destruct (Z.eq_dec m1 m2) as [->|Hm]; [|lia].
    eapply rne_mono_loc; eassumption.
  - destruct (canon_x_mantissa _ _ _ _ Hc1 Hi1 Hm1) as [Hhi1 _].
    destruct (canon_x_mantissa _ _ _ _ Hc2 Hi2 Hm2) as [_ Hlo2].
    destruct Hc1 as (Hemin & _ & _).
    specialize (Hlo2 ltac:(lia)).
    apply Rle_trans with (F2R (2 ^ prec) e1); [apply F2R_le; lia|].
    apply Rle_trans with (F2R (2 ^ (prec - 1)) e2); [|apply F2R_le; lia].
    rewrite !F2R_bpow by (unfold prec; lia). apply bpow_le. lia.
Qed.

(** So is truncating it. *)
Lemma trunc_mono (m1 e1 m2 e2 : Z) (l1 l2 : location) (x1 x2 : R) :
  canon_x e1 x1 -> inb m1 e1 l1 x1 -> 0 <= m1 ->
  canon_x e2 x2 -> inb m2 e2 l2 x2 -> 0 <= m2 ->
  (x1 <= x2)%R ->
  (F2R m1 e1 <= F2R m2 e2)%R.
Proof.
  intros Hc1 Hi1 Hm1 Hc2 Hi2 Hm2 Hx.
  pose proof (canon_x_exp_le _ _ _ _ Hc1 Hc2 Hx) as He.
  destruct (Z.eq_dec e1 e2) as [->|Hne].
  - apply F2R_le.
    pose proof (inb_bounds _ _ _ _ Hi1). pose proof (inb_bounds _ _ _ _ Hi2).
    rewrite <- F2R_succ in *.
    assert (Hlt : (F2R m1 e2 < F2R (m2 + 1) e2)%R) by lra.
    apply F2R_lt_inv in Hlt. lia.
  - destruct (canon_x_mantissa _ _ _ _ Hc1 Hi1 Hm1) as [Hhi1 _].
    destruct (canon_x_mantissa _ _ _ _ Hc2 Hi2 Hm2) as [_ Hlo2].
    destruct Hc1 as (Hemin & _ & _).
    specialize (Hlo2 ltac:(lia)).
    apply Rle_trans with (F2R (2 ^ prec) e1); [apply F2R_le; lia|].
    apply Rle_trans with (F2R (2 ^ (prec - 1)) e2); [|apply F2R_le; lia].
    rewrite !F2R_bpow by (unfold prec; lia). apply bpow_le. lia.
Qed.

(** The result of [binary_round_aux]. *)

Lemma fexp_mono (a b : Z) : a <= b -> fexp a <= fexp b.
Proof. rewrite !fexp_eq. lia. Qed.

Lemma binary_round_aux_rounded (s : bool) (m e : Z) (l : location) (x : R) :
  0 <= m -> inb m e l x -> e <= fexp (Zdigits2 m + e) ->
  exists m2 e2,
    rounded x m2 e2 /\ binary_round_aux prec emax s m e l = pack s m2 e2.
Proof.
  intros Hm Hin He.
  destruct (shr_fexp_spec m e l x Hm Hin He) as (H1 & H1m & H1e & H1c).
  unfold binary_round_aux.
  destruct (shr_fexp prec emax m e l) as [mrs1 e1]. cbn [fst snd] in *.
  set (m1 := shr_m mrs1) in *. set (l1 := loc_of_shr_record mrs1) in *.
  unfold inb_rec in H1. fold m1 l1 in H1.
  pose proof (rne_bounds m1 l1) as Hrne.
  assert (Hin2 : inb (rne m1 l1) e1 loc_Exact (F2R (rne m1 l1) e1))
    by reflexivity.
  assert (He2 : e1 <= fexp (Zdigits2 (rne m1 l1) + e1)).
  { destruct (Z.eq_dec m1 0) as [Hz|Hnz].
    - assert (e1 = emin).
      { destruct H1c as (Hlo & _ & Hnorm).
        destruct (Z.eq_dec e1 emin); [assumption|].
        specialize (Hnorm ltac:(lia)).
        apply inb_bounds in H1. rewrite Hz, F2R_0 in H1.
        pose proof (bpow_le e1 (e1 + prec - 1) ltac:(unfold prec; lia)).
        lra. }
      rewrite fexp_eq. change emin with (-1074) in *. lia.
    - rewrite <- (canon_x_digits m1 e1 l1 x H1c H1 ltac:(lia)) at 1.
      apply fexp_mono. pose proof (Zdigits2_le m1 (rne m1 l1) ltac:(lia)).
      lia. }
  destruct (shr_fexp_spec (rne m1 l1) e1 loc_Exact _ ltac:(lia) Hin2 He2)
    as (H2 & H2m & H2e & H2c).
  destruct (shr_fexp prec emax (rne m1 l1) e1 loc_Exact) as [mrs2 e2].
  cbn [fst snd] in *.
  exists (shr_m mrs2), e2. split.
  - exists m1, e1, l1, (loc_of_shr_record mrs2). auto 10.
  - unfold pack. destruct (shr_m mrs2); reflexivity.
Qed.

Lemma rounded_mono (x1 x2 : R) (m1 e1 m2 e2 : Z) :
  rounded x1 m1 e1 -> rounded x2 m2 e2 -> (x1 <= x2)%R ->
  e1 <= e2 /\ (F2R m1 e1 <= F2R m2 e2)%R.
Proof.
  intros (a1 & b1 & k1 & k1' & Hc1 & Hi1 & Ha1 & Hc1' & Hi1' & Hm1)
         (a2 & b2 & k2 & k2' & Hc2 & Hi2 & Ha2 & Hc2' & Hi2' & Hm2) Hx.
  pose proof (rne_mono _ _ _ _ _ _ _ _ Hc1 Hi1 Ha1 Hc2 Hi2 Ha2 Hx) as Hy.
  split.
  - eapply canon_x_exp_le; eassumption.
  - eapply trunc_mono; eassumption.
Qed.

Lemma rounded_facts (x : R) (m e : Z) :
  rounded x m e ->
  0 <= m /\ emin <= e /\ m < 2 ^ prec /\
  (0 < m -> fexp (Zdigits2 m + e) = e).
Proof.
  intros (a & b & k & k' & Hc & Hi & Ha & Hc' & Hi' & Hm).
  destruct (canon_x_mantissa _ _ _ _ Hc' Hi' Hm) as [Hhi _].
  split; [assumption|]. split; [apply Hc'|]. split; [lia|].
  intros Hpos. eapply canon_x_digits; eassumption.
Qed.

Lemma pack_valid (s : bool) (x : R) (m e : Z) :
  rounded x m e -> valid_binary (pack s m e) = true.
Proof.
  intros Hr. destruct (rounded_facts x m e Hr) as (Hm & He & Hlt & Hcan).
  unfold pack. destruct m as [|p|p]; try reflexivity.
  destruct (e <=? emax - prec) eqn:Hle; [|reflexivity].
  cbn [SpecFloat.valid_binary]. unfold SpecFloat.bounded, SpecFloat.canonical_mantissa.
  specialize (Hcan ltac:(lia)). cbn [Zdigits2] in Hcan.
  rewrite Hcan, Z.eqb_refl, Hle. reflexivity.
Qed.

Lemma key_pack_nonneg (m e : Z) : (0 <= key (pack false m e))%R.
Proof.
  unfold pack. destruct m as [|p|p]; [simpl; lra| |simpl; lra].
  destruct (e <=? emax - prec); simpl.
  - pose proof (F2R_pos (Zpos p) e (Pos2Z.is_pos p)). lra.
  - pose proof (bpow_gt_0 emax). lra.
Qed.

Lemma key_pack_le_top (x : R) (m e : Z) :
  rounded x m e -> (key (pack false m e) <= bpow emax)%R.
Proof.
  intros Hr. destruct (rounded_facts x m e Hr) as (Hm & He & Hlt & _).
  pose proof (bpow_gt_0 emax).
  unfold pack. destruct m as [|p|p]; [simpl; lra| |simpl; lra].
  destruct (e <=? emax - prec) eqn:Hle; simpl; [|lra].
  apply Z.leb_le in Hle.
  apply Rle_trans with (F2R (2 ^ prec) e); [apply F2R_le; lia|].
  rewrite F2R_bpow by (unfold prec; lia). apply bpow_le. lia.
Qed.

(** Rounding is monotone. *)
Lemma pack_mono (x1 x2 : R) (m1 e1 m2 e2 : Z) :
  rounded x1 m1 e1 -> rounded x2 m2 e2 -> (x1 <= x2)%R ->
  (key (pack false m1 e1) <= key (pack false m2 e2))%R.
Proof.
  intros Hr1 Hr2 Hx.
  destruct (rounded_mono _ _ _ _ _ _ Hr1 Hr2 Hx) as [He HF].
  destruct (rounded_facts _ _ _ Hr1) as (Hm1 & _).
  destruct (rounded_facts _ _ _ Hr2) as (Hm2 & _).
  pose proof (key_pack_nonneg m2 e2) as Hnn.
  pose proof (key_pack_le_top _ _ _ Hr1) as Htop.
  destruct m1 as [|p1|p1]; [exact Hnn| |lia].
  pose proof (F2R_pos (Zpos p1) e1 (Pos2Z.is_pos p1)) as Hpos.
  destruct m2 as [|p2|p2]; [rewrite F2R_0 in HF; lra| |lia].
  unfold pack in *.
  destruct (e1 <=? emax - prec) eqn:Hle1, (e2 <=? emax - prec) eqn:Hle2;
    simpl in *; try lra.
  apply Z.leb_le in Hle2. apply Z.leb_gt in Hle1. lia.
Qed.

(** Operations that round a monotone real function. *)

Lemma valid_finite_inv (s : bool) (m : positive) (e : Z) :
  valid_binary (S754_finite s m e) = true ->
  fexp (Zdigits2 (Zpos m) + e) = e /\ e <= emax - prec /\
  Zpos m < 2 ^ prec /\ (emin < e -> 2 ^ (prec - 1) <= Zpos m).
Proof.
  cbn [SpecFloat.valid_binary].
  unfold SpecFloat.bounded, SpecFloat.canonical_mantissa.
  rewrite andb_true_iff, Z.eqb_eq, Z.leb_le. cbn [Zdigits2].
  intros [Hc He].
  pose proof (Zdigits2_spec (Zpos m) (Pos2Z.is_pos m)) as [Dlo Dhi].
  cbn [Zdigits2] in Dlo, Dhi.
  set (D := Z.pos (digits2_pos m)) in *.
  assert (0 < D) by (unfold D; lia).
  rewrite fexp_eq in Hc. change emin with (-1074).
  change emax with 1024 in *. change prec with 53 in *.
  split; [rewrite fexp_eq; exact Hc|]. split; [exact He|]. split.
  - assert (2 ^ D <= 2 ^ 53) by (apply Z.pow_le_mono_r; lia). lia.
  - intros Hgt. assert (D = 53) by lia.
    replace (53 - 1) with (D - 1) by lia. exact Dlo.
Qed.

Lemma key_finite_bounds (m : positive) (e : Z) :
  valid_binary (S754_finite false m e) = true ->
  (0 < key (S754_finite false m e) < bpow emax)%R.
Proof.
  intros Hv. destruct (valid_finite_inv _ _ _ Hv) as (_ & He & Hm & _).
  cbn [key]. split; [apply F2R_pos; lia|].
  apply Rlt_le_trans with (F2R (2 ^ prec) e).
  - unfold F2R. apply IZR_lt in Hm. pose proof (bpow_gt_0 e). nra.
  - rewrite F2R_bpow by (unfold prec; lia). apply bpow_le. lia.
Qed.

Lemma pack_nonneg (x : R) (m e : Z) : rounded x m e -> nonneg (pack false m e).
Proof.
  intros Hr. destruct (rounded_facts _ _ _ Hr) as (Hm & _).
  unfold pack. destruct m as [|p|p]; [exact I| |lia].
  destruct (e <=? emax - prec); reflexivity.
Qed.

Section MonotoneOperation.

Variables (f : spec_float -> spec_float) (phi : R -> R).

Hypothesis phi_mono : forall x y, (0 < x <= y)%R -> (phi x <= phi y)%R.
Hypothesis f_zero : forall s, exists s', f (S754_zero s) = S754_zero s'.
Hypothesis f_inf : f (S754_infinity false) = S754_infinity false.
Hypothesis f_finite : forall m e,
  valid_binary (S754_finite false m e) = true ->
  exists m' e', rounded (phi (F2R (Zpos m) e)) m' e' /\
                f (S754_finite false m e) = pack false m' e'.

Lemma op_nonneg_valid (X : spec_float) :
  nonneg X -> valid_binary X = true ->
  nonneg (f X) /\ valid_binary (f X) = true.
Proof.
  destruct X as [s|s| |s m e]; simpl nonneg; intros Hn Hv; try contradiction.
  - destruct (f_zero s) as [s' ->]. split; [exact I|reflexivity].
  - subst s. rewrite f_inf. split; reflexivity.
  - subst s. destruct (f_finite m e Hv) as (m' & e' & Hr & ->).
    split; [eapply pack_nonneg|eapply pack_valid]; eassumption.
Qed.

Lemma op_mono (X1 X2 : spec_float) :
  nonneg X1 -> valid_binary X1 = true ->
  nonneg X2 -> valid_binary X2 = true ->
  (key X1 <= key X2)%R -> (key (f X1) <= key (f X2))%R.
Proof.
  intros Hn1 Hv1 Hn2 Hv2 Hk.
  assert (Hnn2 : (0 <= key (f X2))%R).
  { destruct X2 as [s|s| |s m e]; simpl nonneg in Hn2; try contradiction.
    - destruct (f_zero s) as [s' ->]. simpl. lra.
    - subst s. rewrite f_inf. cbn [key]. pose proof (bpow_gt_0 emax). lra.
    - subst s. destruct (f_finite m e Hv2) as (m' & e' & Hr & ->).
      apply key_pack_nonneg. }
  pose proof (bpow_gt_0 emax) as Htop.
  destruct X1 as [s1|s1| |s1 m1 e1]; simpl nonneg in Hn1; try contradiction.
  - destruct (f_zero s1) as [s' ->]. exact Hnn2.
  - subst s1. rewrite f_inf.
    destruct X2 as [s2|s2| |s2 m2 e2]; simpl nonneg in Hn2;
      try contradiction.
    + cbn [key] in Hk. lra.
    + subst s2. rewrite f_inf. lra.
    + subst s2. pose proof (key_finite_bounds m2 e2 Hv2). cbn [key] in *. lra.
  - subst s1. pose proof (key_finite_bounds m1 e1 Hv1) as Hb1.
    destruct (f_finite m1 e1 Hv1) as (m1' & e1' & Hr1 & ->).
    destruct X2 as [s2|s2| |s2 m2 e2]; simpl nonneg in Hn2;
      try contradiction.
    + cbn [key] in Hk, Hb1. lra.
    + subst s2. rewrite f_inf. cbn [key]. eapply key_pack_le_top; eassumption.
    + subst s2. destruct (f_finite m2 e2 Hv2) as (m2' & e2' & Hr2 & ->).
      eapply pack_mono; try eassumption.
      apply phi_mono. cbn [key] in Hk, Hb1. lra.
Qed.

End MonotoneOperation.

(** Multiplication, conversion of integers and division. *)

Lemma Zdigits2_mul (a b : Z) :
  0 < a -> 0 < b -> Zdigits2 a + Zdigits2 b - 1 <= Zdigits2 (a * b).
Proof.
  intros Ha Hb. rewrite !Zdigits2_log2 by lia.
  pose proof (Z.log2_mul_below a b Ha Hb). lia.
Qed.

Lemma SFmul_finite (sx sy : bool) (mx my : positive) (ex ey : Z) :
  valid_binary (S754_finite sx mx ex) = true ->
  valid_binary (S754_finite sy my ey) = true ->
  exists m e,
    rounded (F2R (Zpos mx) ex * F2R (Zpos my) ey) m e /\
    SFmul prec emax (S754_finite sx mx ex) (S754_finite sy my ey)
    = pack (xorb sx sy) m e.
Proof.
  intros Hx Hy. cbn [SFmul].
  destruct (valid_finite_inv _ _ _ Hx) as (Hcx & _ & Hmx & Hnx).
  destruct (valid_finite_inv _ _ _ Hy) as (Hcy & _ & Hmy & Hny).
  apply binary_round_aux_rounded.
  - lia.
  - cbn [inb]. change (Z.pos (mx * my)) with (Z.pos mx * Z.pos my).
    unfold F2R. rewrite mult_IZR, bpow_plus. lra.
  - change (Z.pos (mx * my)) with (Z.pos mx * Z.pos my).
    pose proof (Zdigits2_mul (Zpos mx) (Zpos my) ltac:(lia) ltac:(lia)).
    pose proof (Zdigits2_pos (Zpos mx) ltac:(lia)).
    pose proof (Zdigits2_pos (Zpos my) ltac:(lia)).
    rewrite fexp_eq in *. lia.
Qed.

Lemma Pos_iter_xO (d m : positive) :
  Zpos (Pos.iter xO m d) = Zpos m * 2 ^ Zpos d.
Proof.
  induction d as [|d IH] using Pos.peano_ind.
  - simpl. lia.
  - rewrite Pos.iter_succ, Pos2Z.inj_xO, IH, Pos2Z.inj_succ, Z.pow_succ_r by lia.
    lia.
Qed.

Lemma binary_normalize_pos (p : positive) :
  exists m e,
    rounded (IZR (Zpos p)) m e /\
    binary_normalize prec emax (Zpos p) 0 false = pack false m e.
Proof.
  cbn [binary_normalize]. unfold binary_round, shl_align.
  pose proof (Zdigits2_pos (Zpos p) (Pos2Z.is_pos p)) as HD.
  cbn [Zdigits2] in HD. set (D := Z.pos (digits2_pos p)) in *.
  destruct (fexp (D + 0) - 0) as [|q|q] eqn:Hsh.
  - apply binary_round_aux_rounded; [lia| |].
    + cbn [inb]. unfold F2R. change (bpow 0) with 1%R. lra.
    + cbn [Zdigits2]. fold D. lia.
  - apply binary_round_aux_rounded; [lia| |].
    + cbn [inb]. unfold F2R. change (bpow 0) with 1%R. lra.
    + cbn [Zdigits2]. fold D. lia.
  - apply binary_round_aux_rounded; [lia| |].
    + cbn [inb]. rewrite Pos_iter_xO. unfold F2R.
      rewrite mult_IZR, <- bpow_IZR by lia.
      replace (fexp (D + 0)) with (- Zpos q) by lia.
      rewrite Rmult_assoc, <- bpow_plus.
      replace (Z.pos q + - Z.pos q) with 0 by lia.
      change (bpow 0) with 1%R. lra.
    + rewrite Pos_iter_xO.
      pose proof (Zdigits2_mul (Zpos p) (2 ^ Zpos q) ltac:(lia)
                    ltac:(apply Z.pow_pos_nonneg; lia)).
      assert (Zdigits2 (2 ^ Zpos q) = Zpos q + 1).
      { rewrite Zdigits2_log2 by (apply Z.pow_pos_nonneg; lia).
        rewrite Z.log2_pow2 by lia. reflexivity. }
      cbn [Zdigits2] in H. fold D in H.
      rewrite !fexp_eq in *. lia.
Qed.

Lemma new_location_inb (d r q e : Z) (x : R) :
  0 < d -> 0 <= r < d ->
  x = ((IZR q + IZR r / IZR d) * bpow e)%R ->
  inb q e (new_location d r) x.
Proof.
  intros Hd Hr ->.
  set (rho := (IZR r / IZR d)%R).
  assert (HM : (0 < IZR d)%R) by (apply IZR_lt; lia).
  assert (Hrho : (rho * IZR d = IZR r)%R) by (unfold rho; field; lra).
  pose proof (bpow_gt_0 e) as Hb.
  assert (Hx : ((IZR q + rho) * bpow e = F2R q e + rho * bpow e)%R)
    by (unfold F2R; lra).
  rewrite Hx. clear Hx.
  assert (Hzero : r = 0 -> rho = 0%R)
    by (intros E; unfold rho; rewrite E; field; lra).
  assert (Hrho_lt : (rho < 1)%R).
  { assert (IZR r < IZR d)%R by (apply IZR_lt; lia). nra. }
  assert (Hrho_pos : r <> 0 -> (0 < rho)%R).
  { intros Hnz. assert (0 < IZR r)%R by (apply IZR_lt; lia). nra. }
  assert (Hhalf_lt : 2 * r < d -> (rho < 1 / 2)%R).
  { intros Hlt. apply IZR_lt in Hlt. rewrite mult_IZR in Hlt. nra. }
  assert (Hhalf_gt : d < 2 * r -> (1 / 2 < rho)%R).
  { intros Hlt. apply IZR_lt in Hlt. rewrite mult_IZR in Hlt. nra. }
  assert (Hhalf_eq : 2 * r = d -> (rho = 1 / 2)%R).
  { intros Heq. apply (f_equal IZR) in Heq. rewrite mult_IZR in Heq. nra. }
  unfold new_location.
  destruct (Z.even d) eqn:Heven;
    [unfold new_location_even|unfold new_location_odd];
    (destruct (Z.eqb_spec r 0) as [Hz|Hnz];
     [rewrite (Hzero Hz); cbn [inb]; lra|]);
    specialize (Hrho_pos Hnz).
  - destruct (Z.compare_spec (2 * r) d) as [Heq|Hlt|Hgt]; cbn [inb].
    + rewrite (Hhalf_eq Heq). lra.
    + specialize (Hhalf_lt Hlt). nra.
    + specialize (Hhalf_gt Hgt). nra.
  - assert (Hodd : 2 * r <> d).
    { intros E. rewrite <- E, Z.even_mul in Heven. discriminate. }
    destruct (Z.compare_spec (2 * r + 1) d) as [Heq|Hlt|Hgt]; cbn [inb].
    + specialize (Hhalf_lt ltac:(lia)). nra.
    + specialize (Hhalf_lt ltac:(lia)). nra.
    + specialize (Hhalf_gt ltac:(lia)). nra.
Qed.

Lemma SFdiv_finite (sx sy : bool) (mx my : positive) (ex ey : Z) :
  valid_binary (S754_finite sx mx ex) = true ->
  valid_binary (S754_finite sy my ey) = true ->
  exists m e,
    rounded (F2R (Zpos mx) ex / F2R (Zpos my) ey) m e /\
    SFdiv prec emax (S754_finite sx mx ex) (S754_finite sy my ey)
    = pack (xorb sx sy) m e.
Proof.
  intros Hx Hy. cbn [SFdiv]. unfold SFdiv_core_binary.
  set (d1 := Zdigits2 (Zpos mx)). set (d2 := Zdigits2 (Zpos my)).
  set (delta := d1 + ex - (d2 + ey)).
  set (e' := Z.min (fexp delta) (ex - ey)).
  set (s := ex - ey - e').
  assert (Hs : 0 <= s) by (unfold s, e'; lia).
  set (m' := match s with
             | 0 => Z.pos mx
             | Z.pos _ => Z.shiftl (Z.pos mx) s
             | Z.neg _ => 0
             end).
  assert (Hm' : m' = Zpos mx * 2 ^ s).
  { unfold m'. destruct s as [|p|p] eqn:Es; try lia.
    rewrite Z.shiftl_mul_pow2 by lia. reflexivity. }
  pose proof (Z_div_mod m' (Zpos my) ltac:(lia)) as Hdm.
  destruct (Z.div_eucl m' (Zpos my)) as [q r]. destruct Hdm as [Hqr Hr].
  assert (Hm'pos : 0 < m').
  { rewrite Hm'. apply Z.mul_pos_pos; [lia|]. apply Z.pow_pos_nonneg; lia. }
  assert (Hq : 0 <= q) by nia.
  pose proof (bpow_gt_0 e') as Hbe. pose proof (bpow_gt_0 ey) as Hbey.
  assert (HY : (0 < IZR (Zpos my))%R) by (apply IZR_lt; lia).
  assert (Hxy : (F2R (Zpos mx) ex / F2R (Zpos my) ey
                 = (IZR q + IZR r / IZR (Zpos my)) * bpow e')%R).
  { unfold F2R.
    replace ex with (s + e' + ey) by (unfold s; lia).
    rewrite !bpow_plus, (bpow_IZR s) by assumption.
    assert (E : (IZR (Zpos mx) * IZR (2 ^ s)
                 = IZR (Zpos my) * IZR q + IZR r)%R).
    { rewrite <- mult_IZR, <- Hm', Hqr, plus_IZR, mult_IZR. reflexivity. }
    field_simplify_eq; [|lra]. nra. }
  assert (Hin : inb q e' (new_location (Zpos my) r)
                  (F2R (Zpos mx) ex / F2R (Zpos my) ey))
    by (apply new_location_inb; [lia|lia|exact Hxy]).
  apply binary_round_aux_rounded; [assumption|assumption|].
  assert (Hdelta : delta <= Zdigits2 q + e').
  { assert (Hlow : (bpow (delta - 1) < F2R (Zpos mx) ex / F2R (Zpos my) ey)%R).
    { destruct (Zdigits2_bpow (Zpos mx) (Pos2Z.is_pos mx)) as [Hlo1 _].
      destruct (Zdigits2_bpow (Zpos my) (Pos2Z.is_pos my)) as [_ Hhi2].
      fold d1 in Hlo1. fold d2 in Hhi2. rewrite plus_IZR in Hhi2.
      assert (HX : (bpow (delta - 1) * (bpow d2 * bpow ey)
                    <= F2R (Zpos mx) ex)%R).
      { rewrite <- !bpow_plus.
        replace (delta - 1 + (d2 + ey)) with (d1 - 1 + ex)
          by (unfold delta; lia).
        rewrite bpow_plus. unfold F2R. pose proof (bpow_gt_0 ex). nra. }
      assert (HYpos : (0 < F2R (Zpos my) ey)%R) by (apply F2R_pos; lia).
      assert (HYlt : (F2R (Zpos my) ey < bpow d2 * bpow ey)%R)
        by (unfold F2R; nra).
      pose proof (bpow_gt_0 (delta - 1)).
      apply Rlt_le_trans
        with (bpow (delta - 1) * (bpow d2 * bpow ey) / F2R (Zpos my) ey)%R.
      - apply Rmult_lt_reg_r with (F2R (Zpos my) ey); [assumption|].
        field_simplify; [|lra]. nra.
      - apply Rmult_le_compat_r; [|assumption].
        apply Rlt_le, Rinv_0_lt_compat. assumption. }
    assert (Hupp : (F2R (Zpos mx) ex / F2R (Zpos my) ey
                    < bpow (Zdigits2 q + e'))%R).
    { apply inb_bounds in Hin. rewrite <- F2R_succ in Hin.
      apply Rlt_le_trans with (F2R (q + 1) e'); [lra|].
      rewrite bpow_plus. unfold F2R.
      apply Rmult_le_compat_r; [lra|].
      destruct (Z.eq_dec q 0) as [->|Hnz].
      - simpl. change (bpow 0) with 1%R. lra.
      - apply (Zdigits2_bpow q). lia. }
    assert (Hlt : (bpow (delta - 1) < bpow (Zdigits2 q + e'))%R) by lra.
    apply bpow_lt_inv in Hlt. lia. }
  apply fexp_mono in Hdelta. unfold e' at 1. lia.
Qed.

(** Comparison. *)

Lemma canonical_unique (m1 m2 : positive) (e1 e2 : Z) :
  valid_binary (S754_finite false m1 e1) = true ->
  valid_binary (S754_finite false m2 e2) = true ->
  F2R (Zpos m1) e1 = F2R (Zpos m2) e2 -> m1 = m2 /\ e1 = e2.
Proof.
  intros H1 H2 HF.
  destruct (valid_finite_inv _ _ _ H1) as (Hc1 & _ & Hhi1 & Hlo1).
  destruct (valid_finite_inv _ _ _ H2) as (Hc2 & _ & Hhi2 & Hlo2).
  assert (Hmin1 : emin <= e1) by (rewrite fexp_eq in Hc1; change emin with (-1074); lia).
  assert (Hmin2 : emin <= e2) by (rewrite fexp_eq in Hc2; change emin with (-1074); lia).
  assert (Hstrict : forall ma mb ea eb,
            Zpos ma < 2 ^ prec -> 2 ^ (prec - 1) <= Zpos mb -> ea < eb ->
            (F2R (Zpos ma) ea < F2R (Zpos mb) eb)%R).
  { intros ma mb ea eb Ha Hb Hlt.
    apply Rlt_le_trans with (F2R (2 ^ prec) ea).
    - unfold F2R. apply IZR_lt in Ha. pose proof (bpow_gt_0 ea). nra.
    - apply Rle_trans with (F2R (2 ^ (prec - 1)) eb); [|apply F2R_le; lia].
      rewrite !F2R_bpow by (unfold prec; lia). apply bpow_le. lia. }
  assert (He : e1 = e2).
  { destruct (Z.lt_trichotomy e1 e2) as [Hlt|[Heq|Hgt]]; [|assumption|].
    - pose proof (Hstrict m1 m2 e1 e2 Hhi1 (Hlo2 ltac:(lia)) Hlt). lra.
    - pose proof (Hstrict m2 m1 e2 e1 Hhi2 (Hlo1 ltac:(lia)) Hgt). lra. }
  split; [|assumption]. subst e2.
  assert (Zpos m1 <= Zpos m2) by (apply (F2R_le_inv _ _ e1); lra).
  assert (Zpos m2 <= Zpos m1) by (apply (F2R_le_inv _ _ e1); lra).
  lia.
Qed.

(** Two valid non-negative floats of equal magnitude compare alike with
    any third float. *)
Lemma same_key_compare (X Z : spec_float) :
  nonneg X -> valid_binary X = true -> nonneg Z -> valid_binary Z = true ->
  key X = key Z -> forall t, SFcompare X t = SFcompare Z t.
Proof.
  intros HnX HvX HnZ HvZ Hk t.
  pose proof (bpow_gt_0 emax) as Htop.
  destruct X as [sx|sx| |sx mx ex]; simpl nonneg in HnX; try contradiction;
    destruct Z as [sz|sz| |sz mz ez]; simpl nonneg in HnZ; try contradiction;
    subst; cbn [key] in Hk;
    try (pose proof (key_finite_bounds _ _ HvX) as HbX; cbn [key] in HbX);
    try (pose proof (key_finite_bounds _ _ HvZ) as HbZ; cbn [key] in HbZ);
    try lra.
  - destruct t; reflexivity.
  - reflexivity.
  - destruct (canonical_unique _ _ _ _ HvX HvZ Hk) as [-> ->]. reflexivity.
Qed.

(** Two non-negative floats that both equal [t] have the same magnitude. *)
Lemma eqb_same_key (X Y t : spec_float) :
  nonneg X -> nonneg Y ->
  SFeqb X t = true -> SFeqb Y t = true -> key X = key Y.
Proof.
  unfold SFeqb.
  assert (Hfin : forall m1 e1 s m e,
            SFcompare (S754_finite false m1 e1) (S754_finite s m e) = Some Eq ->
            s = false /\ m1 = m /\ e1 = e).
  { intros m1 e1 s m e. cbn [SFcompare]. destruct s; [discriminate|].
    destruct (Z.compare_spec e1 e) as [He|He|He]; try discriminate.
    intros H. injection H as H. apply Pos.compare_eq in H. auto. }
  intros HnX HnY HX HY.
  destruct t as [st|st| |st mt et].
  - destruct X as [sx|sx| |sx mx ex]; simpl nonneg in HnX; try contradiction;
      subst; cbn [SFcompare] in HX; try discriminate;
      destruct Y as [sy|sy| |sy my ey]; simpl nonneg in HnY;
      try contradiction; subst; cbn [SFcompare] in HY; try discriminate.
    reflexivity.
  - destruct X as [sx|sx| |sx mx ex]; simpl nonneg in HnX; try contradiction;
      subst; cbn [SFcompare] in HX; try (destruct st; discriminate);
      destruct Y as [sy|sy| |sy my ey]; simpl nonneg in HnY;
      try contradiction; subst; cbn [SFcompare] in HY;
      try (destruct st; discriminate).
    reflexivity.
  - destruct X; discriminate.
  - destruct X as [sx|sx| |sx mx ex]; simpl nonneg in HnX; try contradiction;
      subst; try (cbn [SFcompare] in HX; destruct st; discriminate);
      destruct Y as [sy|sy| |sy my ey]; simpl nonneg in HnY;
      try contradiction; subst;
      try (cbn [SFcompare] in HY; destruct st; discriminate).
    assert (HX' : SFcompare (S754_finite false mx ex) (S754_finite st mt et)
                  = Some Eq)
      by (destruct (SFcompare (S754_finite false mx ex)
                      (S754_finite st mt et)) as [[| |]|]; congruence).
    assert (HY' : SFcompare (S754_finite false my ey) (S754_finite st mt et)
                  = Some Eq)
      by (destruct (SFcompare (S754_finite false my ey)
                      (S754_finite st mt et)) as [[| |]|]; congruence).
    destruct (Hfin _ _ _ _ _ HX') as (_ & -> & ->).
    destruct (Hfin _ _ _ _ _ HY') as (_ & -> & ->). reflexivity.
Qed.

Lemma SFmul_right_mono (mM : positive) (eM : Z) (X1 X2 : spec_float) :
  valid_binary (S754_finite false mM eM) = true ->
  nonneg X1 -> valid_binary X1 = true ->
  nonneg X2 -> valid_binary X2 = true ->
  (key X1 <= key X2)%R ->
  nonneg (SFmul prec emax X1 (S754_finite false mM eM)) /\
  nonneg (SFmul prec emax X2 (S754_finite false mM eM)) /\
  (key (SFmul prec emax X1 (S754_finite false mM eM))
   <= key (SFmul prec emax X2 (S754_finite false mM eM)))%R.
Proof.
  intros HvM Hn1 Hv1 Hn2 Hv2 Hk.
  set (f := fun X => SFmul prec emax X (S754_finite false mM eM)).
  set (phi := fun x : R => (x * F2R (Zpos mM) eM)%R).
  pose proof (F2R_pos (Zpos mM) eM (Pos2Z.is_pos mM)) as HM.
  assert (Hphi : forall x y, (0 < x <= y)%R -> (phi x <= phi y)%R)
    by (intros x y Hxy; unfold phi; nra).
  assert (Hzero : forall s, exists s', f (S754_zero s) = S754_zero s')
    by (intros s; eexists; reflexivity).
  assert (Hinf : f (S754_infinity false) = S754_infinity false)
    by reflexivity.
  assert (Hfin : forall m e,
            valid_binary (S754_finite false m e) = true ->
            exists m' e', rounded (phi (F2R (Zpos m) e)) m' e' /\
                          f (S754_finite false m e) = pack false m' e').
  { intros m e Hv. exact (SFmul_finite false false m mM e eM Hv HvM). }
  split; [apply (op_nonneg_valid f phi Hzero Hinf Hfin X1 Hn1 Hv1)|].
  split; [apply (op_nonneg_valid f phi Hzero Hinf Hfin X2 Hn2 Hv2)|].
  exact (op_mono f phi Hphi Hzero Hinf Hfin X1 X2 Hn1 Hv1 Hn2 Hv2 Hk).
Qed.

Lemma SFdiv_left_mono (mM : positive) (eM : Z) (X1 X2 : spec_float) :
  valid_binary (S754_finite false mM eM) = true ->
  nonneg X1 -> valid_binary X1 = true ->
  nonneg X2 -> valid_binary X2 = true ->
  (key X1 <= key X2)%R ->
  nonneg (SFdiv prec emax X1 (S754_finite false mM eM)) /\
  nonneg (SFdiv prec emax X2 (S754_finite false mM eM)) /\
  (key (SFdiv prec emax X1 (S754_finite false mM eM))
   <= key (SFdiv prec emax X2 (S754_finite false mM eM)))%R.
Proof.
  intros HvM Hn1 Hv1 Hn2 Hv2 Hk.
  set (f := fun X => SFdiv prec emax X (S754_finite false mM eM)).
  set (phi := fun x : R => (x / F2R (Zpos mM) eM)%R).
  pose proof (F2R_pos (Zpos mM) eM (Pos2Z.is_pos mM)) as HM.
  assert (Hphi : forall x y, (0 < x <= y)%R -> (phi x <= phi y)%R).
  { intros x y Hxy. unfold phi, Rdiv.
    apply Rmult_le_compat_r; [|lra]. apply Rlt_le, Rinv_0_lt_compat, HM. }
  assert (Hzero : forall s, exists s', f (S754_zero s) = S754_zero s')
    by (intros s; eexists; reflexivity).
  assert (Hinf : f (S754_infinity false) = S754_infinity false)
    by reflexivity.
  assert (Hfin : forall m e,
            valid_binary (S754_finite false m e) = true ->
            exists m' e', rounded (phi (F2R (Zpos m) e)) m' e' /\
                          f (S754_finite false m e) = pack false m' e').
  { intros m e Hv. exact (SFdiv_finite false false m mM e eM Hv HvM). }
  split; [apply (op_nonneg_valid f phi Hzero Hinf Hfin X1 Hn1 Hv1)|].
  split; [apply (op_nonneg_valid f phi Hzero Hinf Hfin X2 Hn2 Hv2)|].
  exact (op_mono f phi Hphi Hzero Hinf Hfin X1 X2 Hn1 Hv1 Hn2 Hv2 Hk).
Qed.

(** Conversion of integers. *)
Lemma binary_normalize_class (c : Z) :
  0 <= c ->
  nonneg (binary_normalize prec emax c 0 false) /\
  valid_binary (binary_normalize prec emax c 0 false) = true.
Proof.
  intros Hc. destruct c as [|p|p]; [split; reflexivity| |lia].
  destruct (binary_normalize_pos p) as (m & e & Hr & ->).
  split; [eapply pack_nonneg|eapply pack_valid]; eassumption.
Qed.

Lemma binary_normalize_mono (c1 c2 : Z) :
  0 <= c1 <= c2 ->
  (key (binary_normalize prec emax c1 0 false)
   <= key (binary_normalize prec emax c2 0 false))%R.
Proof.
  intros [H1 H12].
  destruct c1 as [|p1|p1]; [| |lia].
  - destruct c2 as [|p2|p2]; [simpl; lra| |lia].
    destruct (binary_normalize_pos p2) as (m & e & Hr & ->).
    apply key_pack_nonneg.
  - destruct c2 as [|p2|p2]; [lia| |lia].
    destruct (binary_normalize_pos p1) as (m1 & e1 & Hr1 & ->).
    destruct (binary_normalize_pos p2) as (m2 & e2 & Hr2 & ->).
    eapply pack_mono; try eassumption. apply IZR_le. assumption.
Qed.

Lemma of_int_spec (c : Z) :
  0 <= c < 2 ^ 63 ->
  Prim2SF (of_int c) = binary_normalize prec emax c 0 false.
Proof.
  intros Hc. unfold of_int.
  destruct (Z.ltb_spec c 0) as [Hneg|_]; [lia|].
  rewrite of_uint63_spec, Uint63.of_Z_spec.
  rewrite Z.mod_small; [reflexivity|]. exact Hc.
Qed.

(** [round] and [round_dp]. *)

Lemma nint_bounds (m : positive) (e : Z) :
  e < 0 ->
  0 <= nint m e <= Zpos m /\
  (IZR (nint m e) <= F2R (Zpos m) e + 1 / 2 < IZR (nint m e) + 1)%R.
Proof.
  intros He. unfold nint.
  set (k := - e). assert (Hk : 1 <= k) by (unfold k; lia).
  replace (- e - 1) with (k - 1) by (unfold k; lia).
  rewrite Z.shiftl_mul_pow2, Z.mul_1_l by lia.
  rewrite Z.shiftr_div_pow2 by lia.
  set (a := Zpos m + 2 ^ (k - 1)).
  assert (Hpow : 2 ^ k = 2 * 2 ^ (k - 1)).
  { replace k with (Z.succ (k - 1)) at 1 by lia.
    rewrite Z.pow_succ_r by lia. reflexivity. }
  assert (Hpos : 0 < 2 ^ (k - 1)) by (apply Z.pow_pos_nonneg; lia).
  pose proof (Z.mul_div_le a (2 ^ k) ltac:(lia)) as Hlo.
  pose proof (Z.mul_succ_div_gt a (2 ^ k) ltac:(lia)) as Hhi.
  set (n := a / 2 ^ k) in *.
  assert (Hn0 : 0 <= n) by (unfold n; apply Z.div_pos; unfold a; lia).
  split; [unfold a in *; nia|].
  assert (HF : (F2R (Zpos m) e + 1 / 2 = IZR a * bpow e)%R).
  { unfold a. rewrite plus_IZR. unfold F2R.
    assert (Hhalf : (IZR (2 ^ (k - 1)) * bpow e = 1 / 2)%R).
    { rewrite <- bpow_IZR by lia.
      rewrite <- bpow_plus. replace (k - 1 + e) with (-1) by (unfold k; lia).
      unfold bpow. simpl. lra. }
    lra. }
  assert (Hone : (IZR (2 ^ k) * bpow e = 1)%R).
  { rewrite <- bpow_IZR by lia. rewrite <- bpow_plus.
    replace (k + e) with 0 by (unfold k; lia). reflexivity. }
  rewrite HF. pose proof (bpow_gt_0 e) as Hb.
  apply IZR_le in Hlo. apply IZR_lt in Hhi.
  rewrite mult_IZR in Hlo, Hhi. unfold Z.succ in Hhi.
  rewrite plus_IZR in Hhi.
  assert (H2k : (0 < IZR (2 ^ k))%R) by (apply IZR_lt; lia).
  split.
  - replace (IZR n) with (IZR (2 ^ k) * IZR n * bpow e)%R
      by (rewrite Rmult_assoc, (Rmult_comm (IZR n)), <- Rmult_assoc, Hone;
          lra).
    apply Rmult_le_compat_r; lra.
  - replace (IZR n + 1)%R with (IZR (2 ^ k) * (IZR n + 1) * bpow e)%R
      by (rewrite Rmult_assoc, (Rmult_comm (IZR n + 1)), <- Rmult_assoc,
            Hone; lra).
    apply Rmult_lt_compat_r; lra.
Qed.

Lemma round_spec (w : float) :
  nonneg (Prim2SF w) -> Prim2SF (round w) = round_sf (Prim2SF w).
Proof.
  intros Hn. pose proof (Prim2SF_valid w) as Hv. unfold round, round_sf.
  revert Hn Hv.
  destruct (Prim2SF w) as [s|s| |s m e] eqn:HX; intros Hn Hv;
    try exact HX.
  simpl nonneg in Hn. subst s.
  destruct (Z.ltb_spec e 0) as [He|He]; [|exact HX].
  fold (nint m e).
  destruct (nint_bounds m e He) as [[Hn0 Hnm] _].
  destruct (valid_finite_inv _ _ _ Hv) as (_ & _ & Hm & _).
  rewrite of_uint63_spec, Uint63.of_Z_spec, Z.mod_small; [reflexivity|].
  change prec with 53 in Hm. change Uint63.wB with (2 ^ 63).
  assert (2 ^ 53 < 2 ^ 63) by reflexivity. lia.
Qed.

Lemma nonneg_key (X : spec_float) : nonneg X -> (0 <= key X)%R.
Proof.
  destruct X as [s|s| |s m e]; simpl nonneg; intros H; try contradiction;
    subst; cbn [key]; try lra.
  - pose proof (bpow_gt_0 emax). lra.
  - pose proof (F2R_pos (Zpos m) e (Pos2Z.is_pos m)). lra.
Qed.

Lemma nonneg_key_le_top (X : spec_float) :
  nonneg X -> valid_binary X = true -> (key X <= bpow emax)%R.
Proof.
  pose proof (bpow_gt_0 emax).
  destruct X as [s|s| |s m e]; simpl nonneg; intros Hn Hv; try contradiction;
    subst; cbn [key]; try lra.
  pose proof (key_finite_bounds m e Hv) as Hb. cbn [key] in Hb. lra.
Qed.

Lemma integral_float_large (m : positive) (e : Z) :
  valid_binary (S754_finite false m e) = true -> 0 <= e ->
  (bpow 52 <= F2R (Zpos m) e)%R.
Proof.
  intros Hv He. destruct (valid_finite_inv _ _ _ Hv) as (_ & _ & _ & Hlo).
  specialize (Hlo ltac:(change emin with (-1074); lia)).
  change (prec - 1) with 52 in Hlo.
  apply Rle_trans with (F2R (2 ^ 52) e); [|apply F2R_le; assumption].
  rewrite F2R_bpow by lia. apply bpow_le. lia.
Qed.

Lemma fractional_float_small (m : positive) (e : Z) :
  valid_binary (S754_finite false m e) = true -> e < 0 ->
  (F2R (Zpos m) e < bpow 52)%R.
Proof.
  intros Hv He. destruct (valid_finite_inv _ _ _ Hv) as (_ & _ & Hm & _).
  apply Rlt_le_trans with (F2R (2 ^ prec) e).
  - unfold F2R. apply IZR_lt in Hm. pose proof (bpow_gt_0 e). nra.
  - rewrite F2R_bpow by (unfold prec; lia). apply bpow_le.
    change prec with 53. lia.
Qed.

Lemma round_sf_mono (X1 X2 : spec_float) :
  nonneg X1 -> valid_binary X1 = true ->
  nonneg X2 -> valid_binary X2 = true ->
  (key X1 <= key X2)%R ->
  nonneg (round_sf X1) /\ nonneg (round_sf X2) /\
  (key (round_sf X1) <= key (round_sf X2))%R.
Proof.
  intros Hn1 Hv1 Hn2 Hv2 Hk.
  assert (Hclass : forall X, nonneg X -> valid_binary X = true ->
            nonneg (round_sf X) /\ valid_binary (round_sf X) = true).
  { intros X Hn Hv. destruct X as [s|s| |s m e]; try (split; assumption).
    unfold round_sf. destruct (Z.ltb_spec e 0) as [He|He];
      [|split; assumption].
    apply binary_normalize_class. apply nint_bounds. assumption. }
  destruct (Hclass X1 Hn1 Hv1) as [Hrn1 Hrv1].
  destruct (Hclass X2 Hn2 Hv2) as [Hrn2 Hrv2].
  split; [assumption|]. split; [assumption|].
  pose proof (nonneg_key _ Hrn2) as Hnn2.
  pose proof (nonneg_key_le_top _ Hrn1 Hrv1) as Htop1.
  pose proof (bpow_gt_0 emax) as Htop.
  destruct X1 as [s1|s1| |s1 m1 e1]; simpl nonneg in Hn1; try contradiction.
  - exact Hnn2.
  - subst s1.
    destruct X2 as [s2|s2| |s2 m2 e2]; simpl nonneg in Hn2;
      try contradiction; subst; cbn [key round_sf] in *; try lra.
    pose proof (key_finite_bounds m2 e2 Hv2) as Hb. cbn [key] in Hb. lra.
  - subst s1. pose proof (key_finite_bounds m1 e1 Hv1) as Hb1.
    cbn [key] in Hb1, Hk.
    destruct X2 as [s2|s2| |s2 m2 e2]; simpl nonneg in Hn2;
      try contradiction; subst.
    + cbn [key] in Hk. lra.
    + exact Htop1.
    + cbn [key] in Hk. unfold round_sf in *.
      destruct (Z.ltb_spec e1 0) as [He1|He1],
               (Z.ltb_spec e2 0) as [He2|He2].
      * apply binary_normalize_mono.
        destruct (nint_bounds m1 e1 He1) as [[Hn0 _] [Hlo1 _]].
        destruct (nint_bounds m2 e2 He2) as [_ [_ Hhi2]].
        split; [assumption|].
        assert (IZR (nint m1 e1) < IZR (nint m2 e2) + 1)%R by lra.
        rewrite <- plus_IZR in H. apply lt_IZR in H. lia.
      * apply Rle_trans
          with (key (binary_normalize prec emax (2 ^ 52) 0 false)).
        -- apply binary_normalize_mono.
           destruct (nint_bounds m1 e1 He1) as [[Hn0 _] [Hlo1 _]].
           split; [assumption|].
           pose proof (fractional_float_small m1 e1 Hv1 He1) as Hs.
           rewrite (bpow_IZR 52) in Hs by lia.
           assert (IZR (nint m1 e1) < IZR (2 ^ 52) + 1)%R by lra.
           rewrite <- plus_IZR in H. apply lt_IZR in H. lia.
        -- change (binary_normalize prec emax (2 ^ 52) 0 false)
             with (S754_finite false 4503599627370496 0).
           cbn [key].
           pose proof (integral_float_large m2 e2 Hv2 He2) as Hl.
           change 4503599627370496 with (2 ^ 52).
           rewrite (F2R_bpow 52 0) by lia. exact Hl.
      * pose proof (integral_float_large m1 e1 Hv1 He1).
        pose proof (fractional_float_small m2 e2 Hv2 He2). lra.
      * cbn [key]. exact Hk.
Qed.

(** The divisor [(double)total] is a positive finite number. *)
Lemma of_int_finite (total : Z) :
  0 < total < 2 ^ 62 ->
  exists m e, Prim2SF (of_int total) = S754_finite false m e.
Proof.
  intros Ht. rewrite of_int_spec by lia.
  destruct (binary_normalize_class total ltac:(lia)) as [Hn Hv].
  pose proof (binary_normalize_mono 1 total ltac:(lia)) as Hlo.
  pose proof (binary_normalize_mono total (2 ^ 62) ltac:(lia)) as Hhi.
  change (binary_normalize prec emax 1 0 false)
    with (S754_finite false 4503599627370496 (-52)) in Hlo.
  change (binary_normalize prec emax (2 ^ 62) 0 false)
    with (S754_finite false 4503599627370496 10) in Hhi.
  pose proof (key_finite_bounds 4503599627370496 (-52) eq_refl) as B1.
  pose proof (key_finite_bounds 4503599627370496 10 eq_refl) as B2.
  destruct (binary_normalize prec emax total 0 false) as [s|s| |s m e];
    simpl nonneg in Hn; try contradiction; subst; cbn [key] in *.
  - lra.
  - lra.
  - eauto.
Qed.

Lemma pow10_nonneg (d : Z) : nonneg (Prim2SF (pow10 d)).
Proof.
  unfold pow10.
  assert (Hbn : forall k, 0 <= k ->
            exists m e x, rounded x m e /\
              binary_normalize prec emax (10 ^ k) 0 false = pack false m e).
  { intros k Hk. pose proof (Z.pow_pos_nonneg 10 k ltac:(lia) Hk) as Hp.
    destruct (10 ^ k) as [|p|p]; try lia.
    destruct (binary_normalize_pos p) as (m & e & Hr & E). eauto. }
  destruct (Z.ltb_spec d 0) as [Hd|Hd].
  - destruct (Hbn (- d) ltac:(lia)) as (m & e & x & Hr & E).
    rewrite div_spec, E, Prim2SF_SF2Prim by (eapply pack_valid; eassumption).
    change (Prim2SF 1) with (S754_finite false 4503599627370496 (-52)).
    pose proof (pack_valid false x m e Hr) as Hv.
    destruct (rounded_facts _ _ _ Hr) as (Hm & _).
    unfold pack in *. destruct m as [|p|p]; [reflexivity| |lia].
    destruct (e <=? emax - prec); [|reflexivity].
    destruct (SFdiv_finite false false 4503599627370496 p (-52) e eq_refl Hv)
      as (m' & e' & Hr' & E').
    unfold SF64div. rewrite E'. eapply pack_nonneg. eassumption.
  - destruct (Hbn d Hd) as (m & e & x & Hr & E).
    rewrite E, Prim2SF_SF2Prim by (eapply pack_valid; eassumption).
    eapply pack_nonneg. eassumption.
Qed.

(** [round_dp] either yields NaN whatever its argument (when the modifier
    is zero or infinite) or is monotone on the non-negative doubles. *)
Lemma round_dp_nan_or_monotone (d : Z) :
  (forall x, Prim2SF (round_dp x d) = S754_nan) \/
  (forall x1 x2,
     nonneg (Prim2SF x1) -> nonneg (Prim2SF x2) ->
     (key (Prim2SF x1) <= key (Prim2SF x2))%R ->
     nonneg (Prim2SF (round_dp x1 d)) /\ nonneg (Prim2SF (round_dp x2 d)) /\
     (key (Prim2SF (round_dp x1 d)) <= key (Prim2SF (round_dp x2 d)))%R).
Proof.
  unfold round_dp. set (M := pow10 d).
  pose proof (pow10_nonneg d) as HnM. fold M in HnM.
  pose proof (Prim2SF_valid M) as HvM.
  destruct (Prim2SF M) as [sM|sM| |sM mM eM] eqn:EM; simpl nonneg in HnM;
    try contradiction.
  - left. intros x.
    assert (Hw : round (x * M) = (x * M)%float /\
                 (Prim2SF (x * M) = S754_nan \/
                  exists s, Prim2SF (x * M) = S754_zero s)).
    { unfold round. rewrite mul_spec, EM. unfold SF64mul.
      destruct (Prim2SF x); cbn [SFmul]; split; eauto. }
    destruct Hw as [-> Hw]. rewrite div_spec, EM. unfold SF64div.
    destruct Hw as [->|[s ->]]; reflexivity.
  - left. subst sM. intros x.
    assert (Hw : round (x * M) = (x * M)%float /\
                 (Prim2SF (x * M) = S754_nan \/
                  exists s, Prim2SF (x * M) = S754_infinity s)).
    { unfold round. rewrite mul_spec, EM. unfold SF64mul.
      destruct (Prim2SF x); cbn [SFmul]; split; eauto. }
    destruct Hw as [-> Hw]. rewrite div_spec, EM. unfold SF64div.
    destruct Hw as [->|[s ->]]; reflexivity.
  - right. subst sM. intros x1 x2 Hn1 Hn2 Hk.
    pose proof (Prim2SF_valid x1) as Hv1. pose proof (Prim2SF_valid x2) as Hv2.
    assert (Em : forall x, Prim2SF (x * M)
                 = SFmul prec emax (Prim2SF x) (S754_finite false mM eM))
      by (intros x; rewrite mul_spec, EM; reflexivity).
    assert (Ed : forall x, Prim2SF (x / M)
                 = SFdiv prec emax (Prim2SF x) (S754_finite false mM eM))
      by (intros x; rewrite div_spec, EM; reflexivity).
    destruct (SFmul_right_mono mM eM _ _ HvM Hn1 Hv1 Hn2 Hv2 Hk)
      as (Hnw1 & Hnw2 & Hkw).
    rewrite <- (Em x1) in Hnw1, Hkw. rewrite <- (Em x2) in Hnw2, Hkw.
    destruct (round_sf_mono _ _ Hnw1 (Prim2SF_valid _) Hnw2 (Prim2SF_valid _)
                Hkw) as (Hnr1 & Hnr2 & Hkr).
    rewrite <- (round_spec (x1 * M)) in Hnr1, Hkr by assumption.
    rewrite <- (round_spec (x2 * M)) in Hnr2, Hkr by assumption.
    destruct (SFdiv_left_mono mM eM _ _ HvM Hnr1 (Prim2SF_valid _) Hnr2
                (Prim2SF_valid _) Hkr) as (Hng1 & Hng2 & Hkg).
    rewrite !Ed. auto.
Qed.

(** The quotient [(double)c / (double)total] is monotone in [c]. *)
Lemma quotient_mono (total c1 c2 : Z) :
  0 < total < 2 ^ 62 -> 0 <= c1 <= c2 -> c2 < 2 ^ 63 ->
  nonneg (Prim2SF (of_int c1 / of_int total)) /\
  nonneg (Prim2SF (of_int c2 / of_int total)) /\
  (key (Prim2SF (of_int c1 / of_int total))
   <= key (Prim2SF (of_int c2 / of_int total)))%R.
Proof.
  intros Ht Hc Hc2.
  destruct (of_int_finite total Ht) as (mT & eT & ET).
  pose proof (Prim2SF_valid (of_int total)) as HvT. rewrite ET in HvT.
  destruct (binary_normalize_class c1 ltac:(lia)) as [Hn1 Hv1].
  destruct (binary_normalize_class c2 ltac:(lia)) as [Hn2 Hv2].
  pose proof (binary_normalize_mono c1 c2 Hc) as Hk.
  rewrite !div_spec, ET, !of_int_spec by lia. unfold SF64div.
  apply SFdiv_left_mono; assumption.
Qed.

(** The set of counts whose rounded accuracy equals the target has no
    gaps. *)
Lemma accuracy_matches_convex (total : Z) (t : float) (d : Z)
    (c1 c2 c3 : Z) :
  0 < total < 2 ^ 62 -> 0 <= c1 <= c2 -> c2 <= c3 -> c3 < 2 ^ 63 ->
  accuracy_matches total t d c1 = true ->
  accuracy_matches total t d c3 = true ->
  accuracy_matches total t d c2 = true.
Proof.
  unfold accuracy_matches. intros Ht H12 H23 H3. rewrite !eqb_spec.
  intros E1 E3.
  destruct (round_dp_nan_or_monotone d) as [Hnan|Hmono].
  - rewrite Hnan in E1. discriminate E1.
  - destruct (quotient_mono total c1 c2 Ht H12 ltac:(lia)) as (Hq1 & Hq2 & Hk12).
    destruct (quotient_mono total c2 c3 Ht ltac:(lia) H3) as (_ & Hq3 & Hk23).
    destruct (Hmono _ _ Hq1 Hq2 Hk12) as (Hg1 & Hg2 & Hkg12).
    destruct (Hmono _ _ Hq2 Hq3 Hk23) as (_ & Hg3 & Hkg23).
    pose proof (eqb_same_key _ _ _ Hg1 Hg3 E1 E3) as Hsame.
    unfold SFeqb in *.
    rewrite (same_key_compare _ _ Hg2 (Prim2SF_valid _) Hg1 (Prim2SF_valid _)
               ltac:(lra)).
    exact E1.
Qed.

(** ** Accuracy of the enumerated matrices *)

(** Every enumerated matrix has a number of correct predictions that lies
    between the bounds of the range and therefore matches the target. *)
Lemma enumeration_accuracy (a b d : Z) (t : float) (m : matrix) :
  0 < a -> 0 < b -> a + b <= 2147483647 ->
  max_correct (find_positives_vs_negatives initial_min_max (a + b) t d)
    <> -1 ->
  In m (enumeration a b
          (find_positives_vs_negatives initial_min_max (a + b) t d)) ->
  accuracy_matches (a + b) t d (TP m + TN m) = true.
Proof.
  intros Ha Hb Hint Hmax Hin.
  pose proof (scan_down_initial (accuracy_matches (a + b) t d) (a + b)
                (a + b) ltac:(lia)) as [_ Hset].
  change (scan_down _ _ _ _)
    with (find_positives_vs_negatives initial_min_max (a + b) t d) in Hset.
  set (mmv := find_positives_vs_negatives initial_min_max (a + b) t d) in *.
  destruct (Hset Hmax) as (Hbd & Hhit & Hmi & _ & _ & Htwo).
  destruct (enumeration_sums a b mmv m Hin) as (_ & _ & i & Hi & Hsum).
  rewrite Hsum, Hmi.
  replace (a + b - (a + b - max_correct mmv) - i) with (max_correct mmv - i)
    by lia.
  unfold combinations in Hi.
  destruct (min_correct mmv =? -1) eqn:Hmin; simpl in Hi.
  - replace (max_correct mmv - i) with (max_correct mmv) by lia. exact Hhit.
  - apply Z.eqb_neq in Hmin.
    destruct (Htwo Hmin) as (Hlt & Hhit' & _ & _).
    assert (H62 : 2147483647 < 2 ^ 62) by reflexivity.
    assert (H63 : 2 ^ 62 < 2 ^ 63) by reflexivity.
    apply (accuracy_matches_convex (a + b) t d (min_correct mmv)
             (max_correct mmv - i) (max_correct mmv)); try assumption; lia.
Qed.

(** C5.  For positive class sizes whose sum is an [int], once the range
    finder has found a count, [find_matrices] returns (given fuel for its
    loops) and every matrix it has pushed reproduces the target: the
    double [(TP + TN) / (class_a_count + class_b_count)], rounded at
    [decimal_places], equals [target_accuracy].  The rows of the fused file
    are among these matrices and satisfy the same. *)
Theorem accuracy_reproduced (fuel : nat) (a b d : Z)
    (t ts tsp tf1 tp : float) :
  0 < a -> 0 < b -> a + b <= 2147483647 ->
  let mmv := find_positives_vs_negatives initial_min_max (a + b) t d in
  max_correct mmv <> -1 ->
  (Z.to_nat (Z.max a (trips mmv)) <= fuel)%nat ->
  (exists ms,
     Sequential.find_matrices fuel a b mmv = Done ms /\
     forall m, In m ms ->
       accuracy_matches (a + b) t d (TP m + TN m) = true) /\
  (exists rows,
     Fused.find_matrices a b mmv ts tsp tf1 tp d fuel = Done rows /\
     forall m, In m rows ->
       accuracy_matches (a + b) t d (TP m + TN m) = true).
Proof.
  intros Ha Hb Hint mmv Hmax Hfuel.
  assert (Henough : enough_fuel a mmv fuel)
    by (unfold enough_fuel; rewrite trips_combinations; lia).
  split.
  - exists (enumeration a b mmv). split.
    + apply Sequential_find_matrices_exact. assumption.
    + intros m Hin. apply enumeration_accuracy; assumption.
  - exists (filter (Fused.passes ts tsp tf1 tp d) (enumeration a b mmv)).
    split.
    + apply Fused_find_matrices_exact. assumption.
    + intros m Hin. apply filter_In in Hin. destruct Hin as [Hin _].
      apply enumeration_accuracy; assumption.
Qed.

Lemma accuracy_reproduced_5_5 :
  let mmv := find_positives_vs_negatives initial_min_max (5 + 5) 1 0 in
  (exists ms,
     Sequential.find_matrices 6 5 5 mmv = Done ms /\
     forall m, In m ms ->
       accuracy_matches (5 + 5) 1 0 (TP m + TN m) = true) /\
  (exists rows,
     Fused.find_matrices 5 5 mmv 1 0.5 unconstrained unconstrained 0 6
     = Done rows /\
     forall m, In m rows ->
       accuracy_matches (5 + 5) 1 0 (TP m + TN m) = true).
Proof.
  apply (accuracy_reproduced 6 5 5 0 1 1 0.5 unconstrained unconstrained);
    try lia.
  - vm_compute. discriminate.
  - vm_compute. lia.
Defined.
